(** * Document loading pipeline of the "Custom Document Loader" guide

    Shallow embedding of the document-loading code of the guide notebook:
    [CustomDocumentLoader] (a standalone loader reading a text file line by
    line), [MyParser] (a blob parser splitting a blob's bytes into lines),
    and the library pieces they are plugged into ([Blob], [BaseLoader.load],
    [GenericLoader.lazy_load], the asynchronous variants).

    Conventions.
    - Python [bytes] are [list byte]. A Python [str] is represented by its
      UTF-8 encoding, also a [list byte]. Decoding is modelled where the code
      decodes: a text file decodes each chunk it reads and raises
      [UnicodeDecodeError] on malformed UTF-8, and [Document] validates a
      [bytes] page content as UTF-8 and raises [ValidationError] otherwise.
      The newline bytes 0x0A and 0x0D never occur inside a multi-byte UTF-8
      sequence, so splitting and newline translation act on the encoded
      bytes exactly as on the characters.
    - A Python generator is modelled by its step function ([*_next]) on an
      explicit generator state, and its full output by draining it.
    - The lazy sequence of a loader is its event trace: payload resolutions,
      yielded documents and a raised exception, in the order they happen
      while a consumer pulls from it. *)

From Stdlib Require Import List String ZArith Lia Bool Strings.Byte.
Import ListNotations.


(** ** Bytes and values *)

Definition bytes := list byte.

(** [b"\n"] and [b"\r"]. *)
Definition NL : byte := x0a.
Definition CR : byte := x0d.

(** Scalar values stored in a document's metadata dict. *)
Inductive value :=
| VInt (z : Z)
| VStr (s : string)
| VNone.

(** Python [None] or a string, as stored under ["source"]. *)
Definition py_optstr (o : option string) : value :=
  match o with Some s => VStr s | None => VNone end.

(** [langchain_core.documents.Document]: text and a metadata dict (kept as
    an association list in insertion order). *)
Record Document := mkDocument {
  page_content : bytes;
  metadata : list (string * value)
}.

(** [dict.get(key)] on the metadata association list. *)
Fixpoint dict_get (key : string) (d : list (string * value)) : option value :=
  match d with
  | [] => None
  | (k, v) :: d' => if String.eqb k key then Some v else dict_get key d'
  end.

(** Exceptions the pipeline can raise. *)
Inductive py_error :=
| FileNotFoundError (path : string)
| ImportError (module : string)
| SourceEnumerationError (what : string)
| UnicodeDecodeError (codec : string)
| ValidationError (field : string).

(** The environment code runs in: the file system (path to file bytes) and
    whether the optional package [aiofiles] can be imported. *)
Record Env := mkEnv {
  fs : string -> option bytes;
  aiofiles_installed : bool
}.

(** ** Binary file objects: [io.BytesIO] and files opened with ["rb"] *)

(** [readline()] on the remaining bytes: up to and including the first
    [b"\n"], or everything left when there is none. *)
Fixpoint readline (s : bytes) : bytes :=
  match s with
  | [] => []
  | c :: t => if Byte.eqb c NL then [c] else c :: readline t
  end.

(** A file object over a byte buffer with a read position. *)
Record BytesIO := mkBytesIO {
  bio_buf : bytes;
  bio_pos : nat
}.

Definition bio_rest (f : BytesIO) : bytes := skipn (bio_pos f) (bio_buf f).

Definition bio_readline (f : BytesIO) : bytes * BytesIO :=
  let l := readline (bio_rest f) in
  (l, mkBytesIO (bio_buf f) (bio_pos f + List.length l)).

(** [for line in f]: iterate [readline] until it returns an empty line. Each
    step consumes at least one byte, so [S (length (bio_rest f))] steps of
    fuel drain the file ([bio_lines]). *)
Fixpoint bio_iter (fuel : nat) (f : BytesIO) : list bytes :=
  match fuel with
  | O => []
  | S n =>
      let '(line, f') := bio_readline f in
      match line with
      | [] => []
      | _ :: _ => line :: bio_iter n f'
      end
  end.

Definition bio_lines (f : BytesIO) : list bytes :=
  bio_iter (S (List.length (bio_rest f))) f.

(** ** UTF-8 decoding *)

(** The result of decoding bytes: the bytes of the characters decoded (a
    character is represented by its own UTF-8 bytes) and the bytes of an
    unfinished sequence at the end, held back for more input; or an error. *)
Inductive scan_result :=
| ScanOk (out pending : bytes)
| ScanErr.

Definition scan_cons (pre : bytes) (r : scan_result) : scan_result :=
  match r with
  | ScanOk out pending => ScanOk (pre ++ out) pending
  | ScanErr => ScanErr
  end.

Definition in_range (lo hi : nat) (c : byte) : bool :=
  (lo <=? Byte.to_nat c) && (Byte.to_nat c <=? hi).

(** A continuation byte, [0x80..0xBF]. *)
Definition is_cont (c : byte) : bool := in_range 128 191 c.

(** The length of the sequence a byte starts: 1 for ASCII, 2 for
    [0xC2..0xDF], 3 for [0xE0..0xEF], 4 for [0xF0..0xF4]; 0 for a byte that
    starts none ([0x80..0xC1], [0xF5..0xFF]). *)
Definition seq_len (b : byte) : nat :=
  let n := Byte.to_nat b in
  if n <? 128 then 1
  else if n <? 194 then 0
  else if n <? 224 then 2
  else if n <? 240 then 3
  else if n <? 245 then 4
  else 0.

(** The second byte allowed after a lead byte: [0xA0..0xBF] after [0xE0]
    and [0x90..0xBF] after [0xF0] (no overlong form), [0x80..0x9F] after
    [0xED] (no surrogate), [0x80..0x8F] after [0xF4] (nothing above
    U+10FFFF), any continuation byte otherwise. *)
Definition second_ok (b c : byte) : bool :=
  let n := Byte.to_nat b in
  if n =? 224 then in_range 160 191 c
  else if n =? 237 then in_range 128 159 c
  else if n =? 240 then in_range 144 191 c
  else if n =? 244 then in_range 128 143 c
  else is_cont c.

(** CPython's strict UTF-8 decoder. With [final = false] (the incremental
    decoder of a text file before the end of the file) a well-formed
    unfinished sequence at the end is held back instead of raising, and so
    is [0xED] followed by [0xA0..0xBF] as the last two bytes (a truncated
    surrogate, rejected only once more input or the end arrives). With
    [final = true] an unfinished sequence is an error. *)
Fixpoint utf8_scan (final : bool) (s : bytes) : scan_result :=
  match s with
  | [] => ScanOk [] []
  | b :: r =>
      let incomplete := if final then ScanErr else ScanOk [] s in
      match seq_len b with
      | 1 => scan_cons [b] (utf8_scan final r)
      | 2 =>
          match r with
          | [] => incomplete
          | c :: r1 =>
              if is_cont c then scan_cons [b; c] (utf8_scan final r1) else ScanErr
          end
      | 3 =>
          match r with
          | [] => incomplete
          | [c] =>
              if second_ok b c then incomplete
              else if Byte.eqb b xed && is_cont c then incomplete
              else ScanErr
          | c :: d :: r2 =>
              if second_ok b c && is_cont d
              then scan_cons [b; c; d] (utf8_scan final r2) else ScanErr
          end
      | 4 =>
          match r with
          | [] => incomplete
          | [c] => if second_ok b c then incomplete else ScanErr
          | [c; d] => if second_ok b c && is_cont d then incomplete else ScanErr
          | c :: d :: e :: r3 =>
              if second_ok b c && is_cont d && is_cont e
              then scan_cons [b; c; d; e] (utf8_scan final r3) else ScanErr
          end
      | _ => ScanErr
      end
  end.

(** Well-formed UTF-8: [bytes.decode("utf-8")] succeeds. This is also the
    check pydantic makes when a [str] field is given [bytes]. *)
Definition utf8_valid (s : bytes) : bool :=
  match utf8_scan true s with
  | ScanOk _ _ => true
  | ScanErr => false
  end.

(** ** Text files: [open(path, encoding="utf-8")]

    The file object is an [io.TextIOWrapper] over the binary file. It reads
    the file in chunks of [_CHUNK_SIZE] bytes, passes each chunk to an
    incremental UTF-8 decoder wrapped in an [IncrementalNewlineDecoder]
    (universal newlines, the default [newline=None]), and [readline]
    searches the decoded text for ["\n"]. *)

(** Universal newlines: ["\r\n"] and a lone ["\r"] become ["\n"]
    ([output.replace("\r\n", "\n").replace("\r", "\n")]). *)
Fixpoint translate_newlines (s : bytes) : bytes :=
  match s with
  | [] => []
  | c :: t =>
      if Byte.eqb c CR then
        match t with
        | c' :: t' => if Byte.eqb c' NL then NL :: translate_newlines t'
                      else NL :: translate_newlines t
        | [] => [NL]
        end
      else c :: translate_newlines t
  end.

(** [s.endswith("\r")] *)
Fixpoint ends_with_CR (s : bytes) : bool :=
  match s with
  | [] => false
  | [c] => Byte.eqb c CR
  | _ :: t => ends_with_CR t
  end.

(** [IncrementalNewlineDecoder.decode] applied to the UTF-8 decoder's
    [output]: a ["\r"] held back by the previous call is put back in front
    when there is output or at the end; a trailing ["\r"] is held back
    unless at the end (it may be the first half of ["\r\n"]); then the
    newlines are translated. Returns the text and the new [pendingcr]. *)
Definition newline_decode (pendingcr : bool) (output : bytes) (final : bool)
  : bytes * bool :=
  let flush := pendingcr && (match output with [] => false | _ :: _ => true end || final) in
  let output := if flush then CR :: output else output in
  let pendingcr := if flush then false else pendingcr in
  if ends_with_CR output && negb final
  then (translate_newlines (removelast output), true)
  else (translate_newlines output, pendingcr).

(** [TextIOWrapper._CHUNK_SIZE] *)
Definition CHUNK_SIZE : nat := 8192.

(** The state of a text file object: the bytes of the file not read yet,
    the bytes the UTF-8 decoder holds back, whether the newline decoder
    holds back a ["\r"], and the decoded text not returned yet. *)
Record TextIO := mkTextIO {
  tio_raw : bytes;
  tio_pending : bytes;
  tio_pendingcr : bool;
  tio_decoded : bytes
}.

Definition set_decoded (t : TextIO) (d : bytes) : TextIO :=
  mkTextIO (tio_raw t) (tio_pending t) (tio_pendingcr t) d.

(** [TextIOWrapper._read_chunk()]: read up to [_CHUNK_SIZE] bytes
    ([buffer.read1], which on a regular file returns that many bytes or all
    that is left), decode them after the bytes the decoder holds back, with
    [final] set at the end of the file, and make the result the decoded
    text (the previous one has been consumed). [true] unless at the end of
    the file; a malformed sequence raises [UnicodeDecodeError]. *)
Definition read_chunk (t : TextIO) : py_error + (bool * TextIO) :=
  let input_chunk := firstn CHUNK_SIZE (tio_raw t) in
  let eof := match input_chunk with [] => true | _ :: _ => false end in
  match utf8_scan eof (tio_pending t ++ input_chunk) with
  | ScanErr => inl (UnicodeDecodeError "utf-8")
  | ScanOk out pending =>
      let '(decoded, pendingcr) := newline_decode (tio_pendingcr t) out eof in
      inr (negb eof, mkTextIO (skipn CHUNK_SIZE (tio_raw t)) pending pendingcr decoded)
  end.

(** The position of the first ["\n"] ([line.find("\n")]). *)
Fixpoint find_NL (s : bytes) : option nat :=
  match s with
  | [] => None
  | c :: t => if Byte.eqb c NL then Some 0 else option_map S (find_NL t)
  end.

(** The loop of [TextIOWrapper.readline()], from [line] (the decoded text
    taken so far): when [line] holds a ["\n"], return up to and including
    it and keep the rest as decoded text; otherwise read a chunk and, when
    it decoded to some text, append it and search again, when it did not,
    read on, or at the end of the file return [line]. The inner
    [while self._read_chunk(): if self._decoded_chars: break] is unrolled
    into this loop, one chunk per step. Every step but the last reads a
    chunk and every chunk before the end of the file holds at least one
    byte, so [length (tio_raw t) + 2] steps are always enough. *)
Fixpoint readline_loop (fuel : nat) (line : bytes) (t : TextIO)
  : py_error + (bytes * TextIO) :=
  match fuel with
  | O => inr (line, t)
  | S n =>
      match find_NL line with
      | Some pos => inr (firstn (S pos) line, set_decoded t (skipn (S pos) line))
      | None =>
          match read_chunk t with
          | inl e => inl e
          | inr (more, t1) =>
              match tio_decoded t1 with
              | _ :: _ => readline_loop n (line ++ tio_decoded t1) (set_decoded t1 [])
              | [] => if more then readline_loop n line t1 else inr (line, t1)
              end
          end
      end
  end.

(** [f.readline()]: [line = self._get_decoded_chars()], then the loop. *)
Definition tio_readline (t : TextIO) : py_error + (bytes * TextIO) :=
  readline_loop (S (S (List.length (tio_raw t)))) (tio_decoded t) (set_decoded t []).

(** A file just opened: nothing read or decoded yet. *)
Definition open_text (content : bytes) : TextIO := mkTextIO content [] false [].

(** ** Blobs *)

(** Modelled from the spec: [Blob] (langchain_core, not part of the guide's
    code). A blob's payload is either in-memory bytes or a reference to the
    bytes at a path, resolved only when read; [blob_source] is its origin,
    absent for purely in-memory data. *)
Inductive BlobData :=
| InMemory (data : bytes)
| AtPath (path : string).

Record Blob := mkBlob {
  blob_data : BlobData;
  blob_source : option string
}.

(** [Blob.from_path(path)] *)
Definition Blob_from_path (path : string) : Blob := mkBlob (AtPath path) (Some path).

(** [Blob(data=data)] *)
Definition Blob_of_data (data : bytes) : Blob := mkBlob (InMemory data) None.

(** [blob.as_bytes_io()]: a fresh [BytesIO] over in-memory data, or the file
    opened with ["rb"]; this is where a path payload is resolved. *)
Definition as_bytes_io (env : Env) (b : Blob) : py_error + BytesIO :=
  match blob_data b with
  | InMemory d => inr (mkBytesIO d 0)
  | AtPath p =>
      match fs env p with
      | Some c => inr (mkBytesIO c 0)
      | None => inl (FileNotFoundError p)
      end
  end.

(** ** [MyParser.lazy_parse]

<<
    def lazy_parse(self, blob: Blob) -> Iterator[Document]:
        line_number = 0
        with blob.as_bytes_io() as f:
            for line in f:
                line_number += 1
                yield Document(
                    page_content=line,
                    metadata={"line_number": line_number, "source": blob.source},
                )
>> *)

(** One [next()] on a generator: [StopIteration], a yielded document and
    the generator's next state, or an exception (after which the generator
    is finished). *)
Inductive gen_step (G : Type) :=
| Stop
| Yield (d : Document) (g : G)
| Raise (e : py_error).
Arguments Stop {G}.
Arguments Yield {G} d g.
Arguments Raise {G} e.

(** The generator's frame after [with blob.as_bytes_io() as f]. *)
Record ParseGen := mkParseGen {
  pg_file : BytesIO;
  pg_line_number : Z;
  pg_blob : Blob
}.

Definition parse_doc (line : bytes) (line_number : Z) (b : Blob) : Document :=
  mkDocument line [("line_number"%string, VInt line_number);
                   ("source"%string, py_optstr (blob_source b))].

(** One [next()]. [Document(page_content=line, ...)] validates the [bytes]
    [line] as a [str]: pydantic decodes it as UTF-8 and raises
    [ValidationError] when it is not well formed. *)
Definition pg_next (g : ParseGen) : gen_step ParseGen :=
  let '(line, f') := bio_readline (pg_file g) in
  match line with
  | [] => Stop
  | _ :: _ =>
      let line_number := (pg_line_number g + 1)%Z in
      if utf8_valid line
      then Yield (parse_doc line line_number (pg_blob g))
                 (mkParseGen f' line_number (pg_blob g))
      else Raise (ValidationError "page_content")
  end.

(** Draining the generator: the documents yielded, then the exception
    raised, if any. *)
Fixpoint pg_drain (fuel : nat) (g : ParseGen) : list Document * option py_error :=
  match fuel with
  | O => ([], None)
  | S n =>
      match pg_next g with
      | Stop => ([], None)
      | Raise e => ([], Some e)
      | Yield d g' => let '(ds, err) := pg_drain n g' in (d :: ds, err)
      end
  end.

(** Each [next()] but the last consumes at least one byte. *)
Definition pg_run (g : ParseGen) : list Document * option py_error :=
  pg_drain (S (List.length (bio_rest (pg_file g)))) g.

Definition pg_all (g : ParseGen) : list Document := fst (pg_run g).

(** A call [parser.lazy_parse(blob)]: a new generator, or the exception its
    first [next()] raises when the payload cannot be opened. *)
Definition MyParser_lazy_parse (env : Env) (b : Blob) : py_error + ParseGen :=
  match as_bytes_io env b with
  | inl e => inl e
  | inr f => inr (mkParseGen f 0 b)
  end.

(** A blob parser as the generic loader sees it: the documents it yields for
    a blob, then the exception it raises, if any. *)
Definition BlobParser := Env -> Blob -> list Document * option py_error.

Definition MyParser : BlobParser := fun env b =>
  match MyParser_lazy_parse env b with
  | inl e => ([], Some e)
  | inr g => pg_run g
  end.

(** ** [CustomDocumentLoader]

<<
    def lazy_load(self) -> Iterator[Document]:
        with open(self.file_path, encoding="utf-8") as f:
            line_number = 0
            for line in f:
                yield Document(
                    page_content=line,
                    metadata={"line_number": line_number, "source": self.file_path},
                )
                line_number += 1
>>
    [alazy_load] has the same body with [aiofiles.open] and [async for],
    after [import aiofiles]; [aiofiles] runs the same text file object's
    [readline] in a worker thread. *)

Record LoadGen := mkLoadGen {
  lg_file : TextIO;
  lg_line_number : Z;
  lg_file_path : string
}.

Definition load_doc (line : bytes) (line_number : Z) (file_path : string) : Document :=
  mkDocument line [("line_number"%string, VInt line_number);
                   ("source"%string, VStr file_path)].

(** One [next()]: [for line in f] calls [f.readline()] (which may raise
    [UnicodeDecodeError]) and stops at an empty line; [line] is already a
    [str], so building the document raises nothing. *)
Definition lg_next (g : LoadGen) : gen_step LoadGen :=
  match tio_readline (lg_file g) with
  | inl e => Raise e
  | inr (line, f') =>
      match line with
      | [] => Stop
      | _ :: _ =>
          Yield (load_doc line (lg_line_number g) (lg_file_path g))
                (mkLoadGen f' (lg_line_number g + 1)%Z (lg_file_path g))
      end
  end.

Fixpoint lg_drain (fuel : nat) (g : LoadGen) : list Document * option py_error :=
  match fuel with
  | O => ([], None)
  | S n =>
      match lg_next g with
      | Stop => ([], None)
      | Raise e => ([], Some e)
      | Yield d g' => let '(ds, err) := lg_drain n g' in (d :: ds, err)
      end
  end.

(** Bytes the file object has left to return, counting a held-back ["\r"]. *)
Definition tio_size (t : TextIO) : nat :=
  List.length (tio_decoded t) + List.length (tio_pending t) + List.length (tio_raw t) + 1.

(** Every yielded line uses up at least one of those bytes. *)
Definition lg_run (g : LoadGen) : list Document * option py_error :=
  lg_drain (S (tio_size (lg_file g))) g.

(** [open(self.file_path, encoding="utf-8")]: [FileNotFoundError] for a
    missing file; nothing is read or decoded yet. *)
Definition open_utf8 (env : Env) (path : string) : py_error + TextIO :=
  match fs env path with
  | Some c => inr (open_text c)
  | None => inl (FileNotFoundError path)
  end.

Definition CustomDocumentLoader_lazy_load (env : Env) (file_path : string)
  : py_error + LoadGen :=
  match open_utf8 env file_path with
  | inl e => inl e
  | inr f => inr (mkLoadGen f 0 file_path)
  end.

(** [import aiofiles] first, then [aiofiles.open(self.file_path,
    encoding="utf-8")], which opens the same text file in a worker thread. *)
Definition CustomDocumentLoader_alazy_load (env : Env) (file_path : string)
  : py_error + LoadGen :=
  if aiofiles_installed env then
    match open_utf8 env file_path with
    | inl e => inl e
    | inr f => inr (mkLoadGen f 0 file_path)
    end
  else inl (ImportError "aiofiles").

(** ** Lazy sequences as event traces *)

(** What happens, in order, while a consumer pulls a lazy sequence: the
    payload of the [i]-th enumerated item (counting from 0) is resolved, a
    document is yielded, or an exception is raised (which ends the
    sequence). *)
Inductive event :=
| EvResolve (i : nat)
| EvYield (d : Document)
| EvRaise (e : py_error).

(** The documents a consumer receives when it drains the sequence. *)
Fixpoint yields (t : list event) : list Document :=
  match t with
  | [] => []
  | EvYield d :: t' => d :: yields t'
  | _ :: t' => yields t'
  end.

(** The first exception of a trace, if any. *)
Fixpoint raised (t : list event) : option py_error :=
  match t with
  | [] => None
  | EvRaise e :: _ => Some e
  | _ :: t' => raised t'
  end.

(** The events that happen while a consumer calls [next()] [n] times: the
    generator runs only until it has produced the [n]-th document. *)
Fixpoint take_yields (n : nat) (t : list event) : list event :=
  match t with
  | [] => []
  | EvYield d :: t' =>
      match n with
      | O => []
      | S m => EvYield d :: take_yields m t'
      end
  | ev :: t' =>
      match n with
      | O => []
      | S _ => ev :: take_yields n t'
      end
  end.

(** The trace of a drained generator: its documents, then its exception. *)
Definition outcome_trace (r : list Document * option py_error) : list event :=
  map EvYield (fst r) ++ match snd r with Some e => [EvRaise e] | None => [] end.

(** Trace of a started generator (or of the exception its first step raises). *)
Definition gen_trace {G} (run : G -> list Document * option py_error)
    (g : py_error + G) : list event :=
  match g with
  | inl e => [EvRaise e]
  | inr st => outcome_trace (run st)
  end.

(** ** [GenericLoader] *)

(** What the blob loader's [yield_blobs()] produces at each position: a blob
    (not yet read) or the exception raised while listing it. *)
Inductive item :=
| ItemBlob (b : Blob)
| ItemError (e : py_error).

(** Modelled from the spec: [GenericLoader.lazy_load] (langchain_community,
    not part of the guide's code), which the guide composes from
    [filesystem_blob_loader.yield_blobs()] and [parser.lazy_parse(blob)]:
<<
    for blob in self.blob_loader.yield_blobs():
        yield from self.blob_parser.lazy_parse(blob)
>>
    Enumerating an item reads no payload; the parser resolves the payload of
    the blob when it starts on it. *)
Fixpoint generic_trace (parse : Blob -> list Document * option py_error)
    (i : nat) (items : list item) : list event :=
  match items with
  | [] => []
  | ItemError e :: _ => [EvRaise e]
  | ItemBlob b :: rest =>
      let '(ds, err) := parse b in
      EvResolve i :: map EvYield ds ++
        match err with
        | Some e => [EvRaise e]
        | None => generic_trace parse (S i) rest
        end
  end.

(** ** Loaders and [BaseLoader] *)

Inductive Loader :=
| CustomDocumentLoader (file_path : string)
| GenericLoader (blob_loader : list item) (blob_parser : BlobParser).

Definition lazy_load (env : Env) (L : Loader) : list event :=
  match L with
  | CustomDocumentLoader p => gen_trace lg_run (CustomDocumentLoader_lazy_load env p)
  | GenericLoader items parser => generic_trace (parser env) 0 items
  end.

(** Modelled from the spec: [BaseLoader.alazy_load]'s default delegates to
    [lazy_load] (run in an executor); [CustomDocumentLoader] overrides it. *)
Definition alazy_load (env : Env) (L : Loader) : list event :=
  match L with
  | CustomDocumentLoader p => gen_trace lg_run (CustomDocumentLoader_alazy_load env p)
  | GenericLoader _ _ => lazy_load env L
  end.

(** [list(it)]: call [next()] and append until [StopIteration]; an exception
    from [next()] propagates and the partial list is lost. *)
Fixpoint py_list_acc (acc : list Document) (t : list event) : py_error + list Document :=
  match t with
  | [] => inr (rev acc)
  | EvYield d :: t' => py_list_acc (d :: acc) t'
  | EvRaise e :: _ => inl e
  | EvResolve _ :: t' => py_list_acc acc t'
  end.

Definition py_list (t : list event) : py_error + list Document := py_list_acc [] t.

(** [BaseLoader.load]: [return list(self.lazy_load())], as the guide states. *)
Definition load (env : Env) (L : Loader) : py_error + list Document :=
  py_list (lazy_load env L).

(** Modelled from the spec: [BaseLoader.aload], the list of
    [async for doc in self.alazy_load()]. *)
Definition aload (env : Env) (L : Loader) : py_error + list Document :=
  py_list (alazy_load env L).

(** ** Specification-side notions *)

(** The bytes a text file object has not decoded yet: a held-back ["\r"],
    the bytes the UTF-8 decoder holds back, and the unread bytes. *)
Definition tio_undecoded (t : TextIO) : bytes :=
  (if tio_pendingcr t then [CR] else []) ++ tio_pending t ++ tio_raw t.

(** The text a text file object has still to return, as one string. *)
Definition tio_text (t : TextIO) : bytes :=
  tio_decoded t ++ translate_newlines (tio_undecoded t).

(** The lines of a byte string, as the spec describes them: each line but
    the last ends with its [b"\n"] terminator, a final line without
    terminator is kept when it is non-empty, and no line contains a
    [b"\n"] other than its terminator. *)
Inductive lines_of : bytes -> list bytes -> Prop :=
| lines_nil : lines_of [] []
| lines_last (l : bytes) : l <> [] -> ~ In NL l -> lines_of l [l]
| lines_cons (l s : bytes) (L : list bytes) :
    ~ In NL l -> lines_of s L -> lines_of (l ++ NL :: s) ((l ++ [NL]) :: L).

(** The position attribute of a document. *)
Definition line_number_of (d : Document) : option value :=
  dict_get "line_number" (metadata d).

(** The provenance attribute of a document. *)
Definition source_of (d : Document) : option value :=
  dict_get "source" (metadata d).

(** The documents [MyParser] yields for successive lines, the counter
    holding [ln] before the first one. *)
Fixpoint parse_docs (ln : Z) (b : Blob) (ls : list bytes) : list Document :=
  match ls with
  | [] => []
  | l :: t => parse_doc l (ln + 1) b :: parse_docs (ln + 1) b t
  end.

(** The documents [CustomDocumentLoader] yields for successive lines, the
    first one numbered [ln]. *)
Fixpoint load_docs (ln : Z) (p : string) (ls : list bytes) : list Document :=
  match ls with
  | [] => []
  | l :: t => load_doc l ln p :: load_docs (ln + 1) p t
  end.

(** The outcome of [MyParser]'s loop over successive lines, the counter
    holding [ln] before the first one: each line is validated as UTF-8
    when its document is built, and the first malformed one raises. *)
Fixpoint parse_run (ln : Z) (b : Blob) (ls : list bytes) : list Document * option py_error :=
  match ls with
  | [] => ([], None)
  | l :: t =>
      if utf8_valid l
      then let '(ds, err) := parse_run (ln + 1) b t in (parse_doc l (ln + 1) b :: ds, err)
      else ([], Some (ValidationError "page_content"))
  end.

(** What a consumer of a generator still receives: [None] is a generator
    that has finished (by [StopIteration] or an exception). *)
Definition rest_trace (h : option ParseGen) : list event :=
  match h with
  | None => []
  | Some g => outcome_trace (pg_run g)
  end.

(** Two consumers pulling from two generators in the order given by a
    schedule ([true]: the first one calls [next()]); the events each one
    received and the generators afterwards. *)
Fixpoint run_two (sched : list bool) (g1 g2 : option ParseGen)
  : list event * list event * option ParseGen * option ParseGen :=
  match sched with
  | [] => ([], [], g1, g2)
  | true :: s =>
      match g1 with
      | None => run_two s g1 g2
      | Some g =>
          match pg_next g with
          | Stop => run_two s None g2
          | Raise e =>
              let '(o1, o2, h1, h2) := run_two s None g2 in (EvRaise e :: o1, o2, h1, h2)
          | Yield d g1' =>
              let '(o1, o2, h1, h2) := run_two s (Some g1') g2 in (EvYield d :: o1, o2, h1, h2)
          end
      end
  | false :: s =>
      match g2 with
      | None => run_two s g1 g2
      | Some g =>
          match pg_next g with
          | Stop => run_two s g1 None
          | Raise e =>
              let '(o1, o2, h1, h2) := run_two s g1 None in (o1, EvRaise e :: o2, h1, h2)
          | Yield d g2' =>
              let '(o1, o2, h1, h2) := run_two s g1 (Some g2') in (o1, EvYield d :: o2, h1, h2)
          end
      end
  end.

(** Number of documents the parser produces from the first [i] items. *)
Definition count_before (parse : Blob -> list Document * option py_error)
    (items : list item) (i : nat) : nat :=
  list_sum (map (fun it => match it with
                           | ItemBlob b => List.length (fst (parse b))
                           | ItemError _ => 0
                           end) (firstn i items)).

(** ** The guide's blob-loader cell and stepping a parser *)

(** The cell
<<
    parser = MyParser()
    for blob in filesystem_blob_loader.yield_blobs():
        for doc in parser.lazy_parse(blob):
            print(doc)
            break
>>
    as an event trace: [EvYield d] is [print(d)]; after the first document
    the [break] abandons the blob's generator. *)
Fixpoint first_line_cell (env : Env) (i : nat) (items : list item) : list event :=
  match items with
  | [] => []
  | ItemError e :: _ => [EvRaise e]
  | ItemBlob b :: rest =>
      EvResolve i ::
        match MyParser_lazy_parse env b with
        | inl e => [EvRaise e]
        | inr g =>
            match pg_next g with
            | Stop => first_line_cell env (S i) rest
            | Raise e => [EvRaise e]
            | Yield d _ => EvYield d :: first_line_cell env (S i) rest
            end
        end
  end.

(** [k] calls of [next()] on the parser's generator: the documents received
    and the generator after the last one it yielded (it stays put once it
    has stopped or raised). *)
Fixpoint pg_steps (k : nat) (g : ParseGen) : list Document * ParseGen :=
  match k with
  | O => ([], g)
  | S k' =>
      match pg_next g with
      | Yield d g1 => let '(ds, g') := pg_steps k' g1 in (d :: ds, g')
      | _ => ([], g)
      end
  end.

(** 1 when the bytes end with a byte other than [b"\n"] (an unterminated
    last line), 0 otherwise. *)
Fixpoint unterminated_tail (s : bytes) : nat :=
  match s with
  | [] => 0
  | [c] => if Byte.eqb c NL then 0 else 1
  | _ :: t => unterminated_tail t
  end.

(** Number of [b"\n"] bytes. *)
Definition count_NL (s : bytes) : nat := count_occ Byte.byte_eq_dec s NL.

(** ** Concrete environments *)

(** No files; [aiofiles] installed. *)
Definition empty_env : Env := mkEnv (fun _ => None) true.

(** One file ["meow.txt"] holding [b"a\nb"]. *)
Definition meow_env (installed : bool) : Env :=
  mkEnv (fun p => if String.eqb p "meow.txt" then Some [x61; x0a; x62] else None)
        installed.

(** One file ["crlf.txt"] holding [b"a\r\nb"]. *)
Definition crlf_env : Env :=
  mkEnv (fun p => if String.eqb p "crlf.txt" then Some [x61; x0d; x0a; x62] else None)
        true.

(** An empty file ["empty.txt"] and a file ["x.txt"] holding [b"a"]. *)
Definition two_files_env : Env :=
  mkEnv (fun p => if String.eqb p "empty.txt" then Some []
                  else if String.eqb p "x.txt" then Some [x61] else None)
        true.

(** One file ["bad.txt"] holding [b"a\n\xff\nb"], not valid UTF-8. *)
Definition bad_env : Env :=
  mkEnv (fun p => if String.eqb p "bad.txt" then Some [x61; x0a; xff; x0a; x62] else None)
        true.

(** ** Line splitting *)

Lemma NL_eqb_spec (c : byte) : Byte.eqb c NL = true <-> c = NL.
Proof. split; [apply Byte.byte_dec_bl | apply Byte.byte_dec_lb]. Qed.

Lemma readline_nil (s : bytes) : readline s = [] -> s = [].
Proof.
  destruct s as [|c t]; simpl; [auto|].
  destruct (Byte.eqb c NL); discriminate.
Qed.

(** [readline] returns a terminated line, or all that is left. *)
Lemma readline_shape (s : bytes) :
  (exists l rest, ~ In NL l /\ s = l ++ NL :: rest /\ readline s = l ++ [NL])
  \/ (~ In NL s /\ readline s = s).
Proof.
  induction s as [|c t IH]; simpl.
  - right; split; auto.
  - destruct (Byte.eqb c NL) eqn:E.
    + apply NL_eqb_spec in E; subst c.
      left; exists [], t; simpl; auto.
    + assert (c <> NL) by (intro H; apply NL_eqb_spec in H; congruence).
      destruct IH as [(l & rest & Hl & -> & Hr) | (Hn & Hr)].
      * left; exists (c :: l), rest; simpl; rewrite Hr.
        split; [intros [H'|H']; auto | auto].
      * right; rewrite Hr; split; [intros [H'|H']; auto | auto].
Qed.

Lemma bio_rest_readline (f : BytesIO) :
  bio_rest (snd (bio_readline f))
  = skipn (List.length (readline (bio_rest f))) (bio_rest f).
Proof.
  unfold bio_readline, bio_rest; simpl.
  rewrite skipn_skipn, Nat.add_comm; reflexivity.
Qed.

Lemma app_NL_inj (l1 l2 a b : bytes) :
  ~ In NL l1 -> ~ In NL l2 -> l1 ++ NL :: a = l2 ++ NL :: b -> l1 = l2 /\ a = b.
Proof.
  revert l2; induction l1 as [|c l1 IH]; intros [|c2 l2] H1 H2 E; simpl in *.
  - inversion E; auto.
  - inversion E; subst; exfalso; auto.
  - inversion E; subst; exfalso; auto.
  - inversion E; subst.
    destruct (IH l2) as [-> ->]; auto.
Qed.

(** A byte string has exactly one decomposition into lines. *)
Lemma lines_of_unique (s : bytes) (L1 L2 : list bytes) :
  lines_of s L1 -> lines_of s L2 -> L1 = L2.
Proof.
  intros H1; revert L2; induction H1 as [|l Hne Hn|l s L Hn H IH]; intros L2 H2.
  - inversion H2; subst; auto.
    + congruence.
    + destruct l; discriminate.
  - inversion H2; subst; auto.
    + congruence.
    + exfalso; apply Hn; apply in_or_app; simpl; auto.
  - inversion H2 as [E|l' Hne' Hn' E|l' s' L' Hn' H' E]; subst.
    + destruct l; discriminate.
    + exfalso; apply Hn'; apply in_or_app; simpl; auto.
    + destruct (app_NL_inj _ _ _ _ Hn Hn' (eq_sym E)) as [-> ->].
      rewrite (IH _ H'); reflexivity.
Qed.

Lemma skipn_length_app {A} (l r : list A) : skipn (List.length l) (l ++ r) = r.
Proof. induction l; simpl; auto. Qed.

Lemma bio_iter_S (n : nat) (f : BytesIO) :
  bio_iter (S n) f =
  match readline (bio_rest f) with
  | [] => []
  | _ :: _ => readline (bio_rest f) :: bio_iter n (snd (bio_readline f))
  end.
Proof. reflexivity. Qed.

Lemma bio_iter_end (n : nat) (f : BytesIO) : bio_rest f = [] -> bio_iter n f = [].
Proof. intros H; destruct n; [reflexivity|]; rewrite bio_iter_S, H; reflexivity. Qed.

(** Iterating a binary file object yields the lines of what is left of it. *)
Lemma bio_iter_lines (n : nat) (f : BytesIO) :
  List.length (bio_rest f) < n -> lines_of (bio_rest f) (bio_iter n f).
Proof.
  revert f; induction n as [|m IH]; intros f Hlen; [lia|].
  rewrite bio_iter_S.
  pose proof (bio_rest_readline f) as Hf'.
  destruct (readline_shape (bio_rest f)) as [(l & rest & Hl & Er & Hr) | (Hn & Hr)].
  - rewrite Hr in *.
    assert (Hrest : bio_rest (snd (bio_readline f)) = rest).
    { rewrite Hf', Er.
      replace (l ++ NL :: rest) with ((l ++ [NL]) ++ rest)
        by (rewrite <- app_assoc; reflexivity).
      apply skipn_length_app. }
    destruct (l ++ [NL]) as [|c t] eqn:E; [destruct l; discriminate|].
    rewrite <- E, Er; apply lines_cons; [exact Hl|].
    rewrite <- Hrest; apply IH.
    rewrite Hrest; rewrite Er, length_app in Hlen; simpl in Hlen; lia.
  - rewrite Hr in *.
    destruct (bio_rest f) as [|c t] eqn:Er; [constructor|].
    rewrite bio_iter_end; [apply lines_last; [discriminate | exact Hn]|].
    rewrite Hf'; apply skipn_all.
Qed.

Lemma bio_iter_enough (n : nat) (f : BytesIO) :
  List.length (bio_rest f) < n -> bio_iter n f = bio_lines f.
Proof.
  intros H; apply (lines_of_unique (bio_rest f)); apply bio_iter_lines; auto.
Qed.

Lemma bio_lines_of (f : BytesIO) : lines_of (bio_rest f) (bio_lines f).
Proof. apply bio_iter_lines; auto. Qed.

(** One step of [for line in f]. *)
Lemma bio_lines_step (f : BytesIO) :
  bio_lines f =
  match readline (bio_rest f) with
  | [] => []
  | _ :: _ => readline (bio_rest f) :: bio_lines (snd (bio_readline f))
  end.
Proof.
  unfold bio_lines at 1; rewrite bio_iter_S.
  destruct (readline (bio_rest f)) as [|c t] eqn:E; [reflexivity|].
  f_equal; apply bio_iter_enough.
  rewrite bio_rest_readline, length_skipn, E; simpl.
  destruct (bio_rest f) as [|c' t'] eqn:Er; [discriminate|].
  simpl; lia.
Qed.

(** ** UTF-8 decoding *)

Lemma scan_cons_ok (pre : bytes) (r : scan_result) (o p : bytes) :
  scan_cons pre r = ScanOk o p -> exists o', r = ScanOk o' p /\ o = pre ++ o'.
Proof. destruct r; simpl; intros H; inversion H; eauto. Qed.

Ltac split_ifs H :=
  repeat match type of H with
  | context [if ?c then _ else _] =>
      lazymatch type of c with bool => destruct c eqn:?; cbn [andb negb] in H end
  end.

Ltac scan_cases H :=
  lazymatch type of H with
  | context [match ?r with [] => _ | _ :: _ => _ end] =>
      destruct r as [|? ?]; cbn iota beta zeta in H; try scan_cases H
  | _ => idtac
  end.

(** The decoded bytes and the held-back bytes make up the input. *)
Lemma utf8_scan_app (f : bool) (s o p : bytes) : utf8_scan f s = ScanOk o p -> o ++ p = s.
Proof.
  revert o p; induction s as [s IH] using (induction_ltof1 _ (@List.length byte)).
  intros o p H; destruct s as [|b r]; cbn [utf8_scan] in H; [inversion H; reflexivity|].
  destruct (seq_len b) as [|[|[|[|[|k]]]]]; try discriminate;
    scan_cases H; split_ifs H; try discriminate;
    try (destruct f; inversion H; reflexivity);
    (apply scan_cons_ok in H as (o' & H & ->);
     apply IH in H; [rewrite <- app_assoc, H; reflexivity | unfold ltof; simpl; lia]).
Qed.

Lemma valid_scan_cons (pre : bytes) (R : scan_result) :
  match scan_cons pre R with ScanOk _ _ => true | ScanErr => false end =
  match R with ScanOk _ _ => true | ScanErr => false end.
Proof. destruct R; reflexivity. Qed.

Ltac scan_cases_goal :=
  lazymatch goal with
  | |- context [match ?r with [] => _ | _ :: _ => _ end] =>
      destruct r as [|? ?]; cbn iota beta zeta; try scan_cases_goal
  | _ => idtac
  end.

Ltac split_ifs_goal :=
  repeat match goal with
  | |- context [if ?c then _ else _] =>
      lazymatch type of c with bool => destruct c eqn:?; cbn [andb negb] end
  end.

(** A prefix of valid UTF-8 is decoded up to an incomplete sequence at its end,
    and that sequence followed by the rest is valid again. *)
Lemma utf8_scan_prefix (x y : bytes) :
  utf8_valid (x ++ y) = true ->
  exists o p, utf8_scan false x = ScanOk o p /\ utf8_valid (p ++ y) = true.
Proof.
  induction x as [x IH] using (induction_ltof1 _ (@List.length byte)).
  intros Hv0; destruct x as [|b r]; [exists [], []; auto|].
  pose proof Hv0 as Hv; unfold utf8_valid in Hv; cbn [app utf8_scan] in Hv |- *.
  destruct (seq_len b) as [|[|[|[|[|k]]]]]; try discriminate;
    scan_cases_goal; cbn [app] in Hv; scan_cases Hv; split_ifs_goal; split_ifs Hv;
    try discriminate; try (eexists _, _; split; [reflexivity | exact Hv0]).
  all: rewrite valid_scan_cons in Hv; apply IH in Hv as (o & p & Ho & Hp);
    [rewrite Ho; eexists _, _; split; [reflexivity | exact Hp] | unfold ltof; simpl; lia].
Qed.

Lemma utf8_scan_final (s o p : bytes) : utf8_scan true s = ScanOk o p -> p = [].
Proof.
  revert o p; induction s as [s IH] using (induction_ltof1 _ (@List.length byte)).
  intros o p H; destruct s as [|b r]; cbn [utf8_scan] in H; [inversion H; reflexivity|].
  destruct (seq_len b) as [|[|[|[|[|k]]]]]; try discriminate;
    scan_cases H; split_ifs H; try discriminate;
    (apply scan_cons_ok in H as (o' & H & ->);
     apply IH in H; [exact H | unfold ltof; simpl; lia]).
Qed.

Lemma utf8_scan_step (final : bool) (b : byte) (r : bytes) :
  utf8_scan final (b :: r) =
  let incomplete := if final then ScanErr else ScanOk [] (b :: r) in
  match seq_len b with
  | 1 => scan_cons [b] (utf8_scan final r)
  | 2 =>
      match r with
      | [] => incomplete
      | c :: r1 => if is_cont c then scan_cons [b; c] (utf8_scan final r1) else ScanErr
      end
  | 3 =>
      match r with
      | [] => incomplete
      | [c] =>
          if second_ok b c then incomplete
          else if Byte.eqb b xed && is_cont c then incomplete
          else ScanErr
      | c :: d :: r2 =>
          if second_ok b c && is_cont d
          then scan_cons [b; c; d] (utf8_scan final r2) else ScanErr
      end
  | 4 =>
      match r with
      | [] => incomplete
      | [c] => if second_ok b c then incomplete else ScanErr
      | [c; d] => if second_ok b c && is_cont d then incomplete else ScanErr
      | c :: d :: e :: r3 =>
          if second_ok b c && is_cont d && is_cont e
          then scan_cons [b; c; d; e] (utf8_scan final r3) else ScanErr
      end
  | _ => ScanErr
  end.
Proof. reflexivity. Qed.

Section Ascii.
Variable a : byte.
Hypothesis Ha : Byte.to_nat a < 128.

Lemma ascii_seq_len : seq_len a = 1.
Proof. unfold seq_len; apply Nat.ltb_lt in Ha; rewrite Ha; reflexivity. Qed.

Lemma ascii_not_cont : is_cont a = false.
Proof.
  unfold is_cont, in_range; apply andb_false_intro1, Nat.leb_gt; lia.
Qed.

Lemma ascii_not_second (b : byte) : second_ok b a = false.
Proof.
  unfold second_ok, in_range;
    repeat match goal with |- context [if ?c then _ else _] => destruct c end;
    first [apply andb_false_intro1, Nat.leb_gt; lia | apply ascii_not_cont].
Qed.

(** Valid UTF-8 cut after an ASCII byte gives two valid halves. *)
Lemma utf8_valid_split (x y : bytes) :
  utf8_valid (x ++ a :: y) = true -> utf8_valid (x ++ [a]) = true /\ utf8_valid y = true.
Proof.
  induction x as [x IH] using (induction_ltof1 _ (@List.length byte)).
  intros Hv; destruct x as [|b r].
  - unfold utf8_valid in *; cbn [app utf8_scan] in *; rewrite ascii_seq_len in *.
    rewrite valid_scan_cons in Hv; split; [reflexivity | exact Hv].
  - unfold utf8_valid in Hv |- *; destruct r as [|c [|d [|e r3]]];
      cbn [app] in Hv |- *; rewrite utf8_scan_step in Hv |- *;
      destruct (seq_len b) as [|[|[|[|[|k]]]]]; try discriminate;
      cbn beta iota zeta in Hv |- *;
      repeat lazymatch type of Hv with
          | context [match y with [] => _ | _ :: _ => _ end] =>
              destruct y as [|? y]; cbn beta iota zeta in Hv
          end;
      rewrite ?ascii_not_cont, ?ascii_not_second, ?andb_false_r in Hv |- *; cbn [andb] in Hv |- *;
      split_ifs Hv; split_ifs_goal; try discriminate;
      rewrite ?valid_scan_cons in Hv |- *;
      let use r := apply (IH r) in Hv; [exact Hv | unfold ltof; simpl; lia] in
      try first [ use (@nil byte) | use [c] | use [c; d] | use (c :: d :: e :: r3)
                | use [d] | use [d; e] | use (d :: e :: r3) | use [e] | use (e :: r3)
                | use r3 ].
Qed.
End Ascii.

(** ** Universal newlines *)

Lemma translate_newlines_no_CR (c : bytes) : ~ In CR c -> translate_newlines c = c.
Proof.
  induction c as [|x t IH]; intros H; [reflexivity|]; simpl.
  destruct (Byte.eqb x CR) eqn:E.
  - exfalso; apply H; left; symmetry; apply Byte.byte_dec_bl; exact E.
  - f_equal; apply IH; intros H'; apply H; right; exact H'.
Qed.

Lemma translate_newlines_no_CR_out (s : bytes) : ~ In CR (translate_newlines s).
Proof.
  remember (List.length s) as n; revert s Heqn.
  induction n as [n IH] using lt_wf_ind; intros [|c t] ->; simpl; [auto|].
  destruct (Byte.eqb c CR) eqn:E.
  - destruct t as [|c' t'].
    + intros [H|[]]; discriminate.
    + destruct (Byte.eqb c' NL); intros [H|H]; try discriminate.
      * exact (IH (List.length t') ltac:(simpl; lia) t' eq_refl H).
      * exact (IH (List.length (c' :: t')) ltac:(simpl; lia) (c' :: t') eq_refl H).
  - intros [H|H].
    + subst c; discriminate.
    + exact (IH (List.length t) ltac:(simpl; lia) t eq_refl H).
Qed.

Lemma translate_newlines_length (s : bytes) :
  List.length (translate_newlines s) <= List.length s.
Proof.
  induction s as [s IH] using (induction_ltof1 _ (@List.length byte)).
  destruct s as [|c t]; simpl; [lia|].
  destruct (Byte.eqb c CR).
  - destruct t as [|c' t']; simpl; [lia|].
    destruct (Byte.eqb c' NL); simpl.
    + specialize (IH t' ltac:(unfold ltof; simpl; lia)); lia.
    + specialize (IH (c' :: t') ltac:(unfold ltof; simpl; lia)); simpl in IH; lia.
  - specialize (IH t ltac:(unfold ltof; simpl; lia)); simpl; lia.
Qed.

Lemma ends_with_CR_tail (c : byte) (t : bytes) (P : Prop) :
  ends_with_CR (c :: t) = false \/ P -> ends_with_CR t = false \/ P.
Proof. destruct t; auto. Qed.

(** Translating two pieces separately is translating the whole, unless the
    cut falls between the two bytes of a ["\r\n"]. *)
Lemma translate_newlines_app (x y : bytes) :
  ends_with_CR x = false \/ hd_error y <> Some NL ->
  translate_newlines (x ++ y) = translate_newlines x ++ translate_newlines y.
Proof.
  induction x as [x IH] using (induction_ltof1 _ (@List.length byte)).
  intros Hc; destruct x as [|c t]; [reflexivity|].
  cbn [app translate_newlines].
  destruct (Byte.eqb c CR) eqn:Ec.
  - destruct t as [|c' t'].
    + cbn [app]; destruct y as [|c' y']; [reflexivity|].
      destruct Hc as [Hc|Hc]; [simpl in Hc; rewrite Ec in Hc; discriminate|].
      destruct (Byte.eqb c' NL) eqn:En; [|reflexivity].
      apply NL_eqb_spec in En; subst; simpl in Hc; congruence.
    + cbn [app]; destruct (Byte.eqb c' NL).
      * rewrite (IH t'); [reflexivity | unfold ltof; simpl; lia |].
        do 2 apply ends_with_CR_tail in Hc; exact Hc.
      * change (c' :: t' ++ y) with ((c' :: t') ++ y).
        rewrite (IH (c' :: t')); [reflexivity | unfold ltof; simpl; lia |].
        apply ends_with_CR_tail in Hc; exact Hc.
  - rewrite (IH t); [reflexivity | unfold ltof; simpl; lia |].
    apply ends_with_CR_tail in Hc; exact Hc.
Qed.

Lemma ends_with_CR_removelast (s : bytes) :
  ends_with_CR s = true -> s = removelast s ++ [CR].
Proof.
  induction s as [|c t IH]; [discriminate|].
  destruct t as [|c' t']; intros H.
  - simpl in H; apply Byte.byte_dec_bl in H; subst; reflexivity.
  - change (removelast (c :: c' :: t')) with (c :: removelast (c' :: t')).
    rewrite <- app_comm_cons, <- IH; [reflexivity | exact H].
Qed.

(** ** Text files *)

Lemma CHUNK_SIZE_pos : 0 < CHUNK_SIZE.
Proof. apply Nat.lt_0_succ. Qed.

Lemma firstn_S_length_app (a b : bytes) (c : byte) :
  firstn (S (List.length a)) (a ++ c :: b) = a ++ [c].
Proof. induction a; simpl; f_equal; auto. Qed.

Lemma skipn_S_length_app (a b : bytes) (c : byte) :
  skipn (S (List.length a)) (a ++ c :: b) = b.
Proof. induction a; simpl; auto. Qed.

Lemma find_NL_Some (l : bytes) (pos : nat) :
  find_NL l = Some pos ->
  exists a b, l = a ++ NL :: b /\ ~ In NL a /\ pos = List.length a.
Proof.
  revert pos; induction l as [|c t IH]; intros pos H; [discriminate|].
  simpl in H; destruct (Byte.eqb c NL) eqn:E.
  - apply NL_eqb_spec in E; subst; injection H as <-.
    exists [], t; simpl; auto.
  - destruct (find_NL t) as [q|]; [|discriminate].
    injection H as <-; destruct (IH q eq_refl) as (a & b & -> & Ha & ->).
    exists (c :: a), b; split; [reflexivity|]; split; [|reflexivity].
    intros [H|H]; [subst; rewrite (proj2 (NL_eqb_spec NL) eq_refl) in E; discriminate | auto].
Qed.

Lemma find_NL_None (l : bytes) : find_NL l = None -> ~ In NL l.
Proof.
  induction l as [|c t IH]; intros H; [auto|].
  simpl in H; destruct (Byte.eqb c NL) eqn:E; [discriminate|].
  destruct (find_NL t); [discriminate|].
  intros [H'|H']; [subst; rewrite (proj2 (NL_eqb_spec NL) eq_refl) in E; discriminate | exact (IH eq_refl H')].
Qed.

Lemma readline_no_NL (l : bytes) : ~ In NL l -> readline l = l.
Proof.
  destruct (readline_shape l) as [(a & b & _ & -> & _) | (_ & H)]; [|auto].
  intros Hn; exfalso; apply Hn, in_or_app; right; left; reflexivity.
Qed.

Lemma readline_app_NL (a b : bytes) : ~ In NL a -> readline (a ++ NL :: b) = a ++ [NL].
Proof.
  destruct (readline_shape (a ++ NL :: b)) as [(a' & b' & Ha' & E & H) | (Hn & _)];
    intros Ha.
  - destruct (app_NL_inj _ _ _ _ Ha Ha' E) as [-> _]; exact H.
  - exfalso; apply Hn, in_or_app; right; left; reflexivity.
Qed.

Lemma tio_undecoded_set (t : TextIO) (d : bytes) :
  tio_undecoded (set_decoded t d) = tio_undecoded t.
Proof. reflexivity. Qed.

(** [_read_chunk()] on a file whose undecoded bytes are valid UTF-8: it
    raises nothing, the text it decodes is the translation of the undecoded
    bytes up to what it still holds back, it reads at least one byte unless
    at the end of the file, and at the end nothing is held back. *)
Lemma read_chunk_valid (t : TextIO) :
  utf8_valid (tio_pending t ++ tio_raw t) = true ->
  exists more t1,
    read_chunk t = inr (more, t1)
    /\ utf8_valid (tio_pending t1 ++ tio_raw t1) = true
    /\ translate_newlines (tio_undecoded t)
       = tio_decoded t1 ++ translate_newlines (tio_undecoded t1)
    /\ (more = true -> List.length (tio_raw t1) < List.length (tio_raw t))
    /\ (more = false -> tio_undecoded t1 = []).
Proof.
  destruct t as [raw pend pcr dec]; unfold read_chunk, tio_undecoded; cbn - [CHUNK_SIZE].
  pose proof CHUNK_SIZE_pos as HC; destruct CHUNK_SIZE as [|C]; [lia|]; clear HC.
  intros Hv; destruct raw as [|r0 raw0].
  - rewrite app_nil_r in *; cbn [firstn skipn].
    destruct (utf8_scan true pend) as [o p|] eqn:E;
      [|unfold utf8_valid in Hv; rewrite E in Hv; discriminate].
    pose proof (utf8_scan_final _ _ _ E) as ->.
    pose proof (utf8_scan_app _ _ _ _ E) as Ho; rewrite app_nil_r in Ho; subst o.
    destruct pcr; (exists false; eexists; split;
      [unfold newline_decode; rewrite orb_true_r, andb_true_r; cbn [negb];
       rewrite andb_false_r; reflexivity|]);
      cbn; (split; [reflexivity|]);
      (split; [|split; [discriminate | reflexivity]]); rewrite !app_nil_r; reflexivity.
  - cbn [firstn skipn].
    rewrite <- (firstn_skipn C raw0), app_comm_cons, app_assoc in Hv.
    destruct (utf8_scan_prefix _ _ Hv) as (o & p & E & Hp).
    pose proof (utf8_scan_app _ _ _ _ E) as Ho.
    assert (Hund : pend ++ r0 :: raw0 = o ++ p ++ skipn C raw0).
    { rewrite app_assoc, Ho, <- app_assoc; cbn [app].
      rewrite (firstn_skipn C raw0); reflexivity. }
    assert (Hlen : List.length (skipn C raw0) < List.length (r0 :: raw0))
      by (rewrite length_skipn; simpl; lia).
    rewrite E, Hund; unfold newline_decode.
    destruct pcr, o as [|o0 os]; cbn [andb orb negb].
    + exists true; eexists; split; [reflexivity|]; cbn [tio_raw tio_pending tio_decoded].
      split; [exact Hp|]; split; [reflexivity|]; split; [intros _; exact Hlen | discriminate].
    + destruct (ends_with_CR (CR :: o0 :: os)) eqn:Ee;
        (exists true; eexists; split; [reflexivity|]; cbn [tio_raw tio_pending tio_decoded];
         split; [exact Hp|]; split; [|split; [intros _; exact Hlen | discriminate]]);
        unfold tio_undecoded; cbn [tio_raw tio_pending tio_pendingcr];
        rewrite app_assoc; change ([CR] ++ (o0 :: os)) with (CR :: o0 :: os).
      * rewrite (ends_with_CR_removelast _ Ee) at 1.
        rewrite <- app_assoc, translate_newlines_app by (right; discriminate).
        reflexivity.
      * rewrite translate_newlines_app by (left; exact Ee); reflexivity.
    + exists true; eexists; split; [reflexivity|]; cbn [tio_raw tio_pending tio_decoded].
      split; [exact Hp|]; split; [reflexivity|]; split; [intros _; exact Hlen | discriminate].
    + destruct (ends_with_CR (o0 :: os)) eqn:Ee;
        (exists true; eexists; split; [reflexivity|]; cbn [tio_raw tio_pending tio_decoded];
         split; [exact Hp|]; split; [|split; [intros _; exact Hlen | discriminate]]);
        unfold tio_undecoded; cbn [tio_raw tio_pending tio_pendingcr]; rewrite app_nil_l.
      * rewrite (ends_with_CR_removelast _ Ee) at 1.
        rewrite <- app_assoc, translate_newlines_app by (right; discriminate).
        reflexivity.
      * rewrite (translate_newlines_app (o0 :: os)) by (left; exact Ee); reflexivity.
Qed.

(** The loop of [readline()] on a file whose undecoded bytes are valid
    UTF-8 returns the first line of the text taken so far followed by the
    rest of the file's text, and keeps what follows that line. *)
Lemma readline_loop_valid (n : nat) (line : bytes) (t : TextIO) :
  tio_decoded t = [] ->
  utf8_valid (tio_pending t ++ tio_raw t) = true ->
  List.length (tio_raw t) + 2 <= n \/ (tio_undecoded t = [] /\ 1 <= n) ->
  exists t',
    readline_loop n line t
      = inr (readline (line ++ translate_newlines (tio_undecoded t)), t')
    /\ utf8_valid (tio_pending t' ++ tio_raw t') = true
    /\ tio_text t'
       = skipn (List.length (readline (line ++ translate_newlines (tio_undecoded t))))
               (line ++ translate_newlines (tio_undecoded t)).
Proof.
  revert line t; induction n as [|m IH]; intros line t Hd Hv Hn; [lia|].
  cbn [readline_loop].
  destruct (find_NL line) as [pos|] eqn:Ef.
  - destruct (find_NL_Some _ _ Ef) as (a & b & -> & Ha & ->).
    rewrite <- app_assoc, <- app_comm_cons, readline_app_NL by exact Ha.
    exists (set_decoded t b).
    rewrite firstn_S_length_app, skipn_S_length_app.
    split; [reflexivity|]; split; [exact Hv|].
    replace (S (List.length a)) with (List.length (a ++ [NL]))
      by (rewrite length_app; simpl; lia).
    replace (a ++ NL :: b ++ translate_newlines (tio_undecoded t))
      with ((a ++ [NL]) ++ b ++ translate_newlines (tio_undecoded t))
      by (rewrite <- app_assoc; reflexivity).
    rewrite skipn_length_app; reflexivity.
  - destruct (read_chunk_valid t Hv) as (more & t1 & Er & Hv1 & Htr & Hmore & Hend).
    rewrite Er, Htr.
    destruct (tio_decoded t1) as [|d ds] eqn:Ed.
    + destruct more.
      * specialize (Hmore eq_refl).
        destruct (IH line t1 Ed Hv1) as (t' & H1 & H2 & H3).
        { left; destruct Hn as [Hn|(Hu & _)]; [lia|].
          unfold tio_undecoded in Hu; destruct (tio_pendingcr t);
            [discriminate|]; apply app_eq_nil in Hu as [_ Hu];
            apply app_eq_nil in Hu as [_ Hu]; rewrite Hu in Hmore; simpl in Hmore; lia. }
        exists t'; split; [exact H1|]; split; [exact H2 | exact H3].
      * specialize (Hend eq_refl).
        exists t1; rewrite Hend; cbn [translate_newlines app]; rewrite app_nil_r.
        rewrite readline_no_NL by (apply find_NL_None; exact Ef).
        split; [reflexivity|]; split; [exact Hv1|].
        unfold tio_text; rewrite Ed, Hend, skipn_all; reflexivity.
    + destruct (IH (line ++ d :: ds) (set_decoded t1 [])) as (t' & H1 & H2 & H3);
        [reflexivity | exact Hv1 | |].
      * destruct more; [specialize (Hmore eq_refl) | specialize (Hend eq_refl)].
        -- left; destruct Hn as [Hn|(Hu & _)]; [cbn [set_decoded tio_raw]; lia|].
           rewrite Hu in Htr; discriminate.
        -- right; split; [exact Hend|].
           destruct Hn as [Hn|(Hu & _)]; [lia|].
           rewrite Hu in Htr; discriminate.
      * exists t'; rewrite tio_undecoded_set, <- app_assoc in H1, H3.
        split; [exact H1|]; split; [exact H2 | exact H3].
Qed.

(** [f.readline()] on a file whose undecoded bytes are valid UTF-8: the
    first line of the text it has still to return. *)
Lemma tio_readline_valid (t : TextIO) :
  utf8_valid (tio_pending t ++ tio_raw t) = true ->
  exists t',
    tio_readline t = inr (readline (tio_text t), t')
    /\ utf8_valid (tio_pending t' ++ tio_raw t') = true
    /\ tio_text t' = skipn (List.length (readline (tio_text t))) (tio_text t).
Proof.
  intros Hv; unfold tio_readline.
  destruct (readline_loop_valid (S (S (List.length (tio_raw t)))) (tio_decoded t)
              (set_decoded t [])) as (t' & H1 & H2 & H3);
    [reflexivity | exact Hv | left; simpl; lia |].
  exists t'; exact (conj H1 (conj H2 H3)).
Qed.

(** Iterating a binary file object depends only on what is left of it. *)
Lemma bio_iter_rest (n : nat) (f f' : BytesIO) :
  bio_rest f = bio_rest f' -> bio_iter n f = bio_iter n f'.
Proof.
  revert f f'; induction n as [|m IH]; intros f f' H; [reflexivity|].
  rewrite !bio_iter_S, H.
  destruct (readline (bio_rest f')); [reflexivity|].
  f_equal; apply IH; rewrite !bio_rest_readline, H; reflexivity.
Qed.

Lemma bio_rest_start (s : bytes) : bio_rest (mkBytesIO s 0) = s.
Proof. reflexivity. Qed.

(** Draining the loader's generator on a file whose undecoded bytes are
    valid UTF-8: one document per line of the text, and no exception. *)
Lemma lg_drain_valid (n : nat) (t : TextIO) (ln : Z) (p : string) :
  utf8_valid (tio_pending t ++ tio_raw t) = true ->
  lg_drain n (mkLoadGen t ln p)
  = (load_docs ln p (bio_iter n (mkBytesIO (tio_text t) 0)), None).
Proof.
  revert t ln; induction n as [|m IH]; intros t ln Hv; [reflexivity|].
  cbn [lg_drain]; unfold lg_next; cbn [lg_file lg_line_number lg_file_path].
  destruct (tio_readline_valid t Hv) as (t' & H1 & H2 & H3); rewrite H1.
  rewrite bio_iter_S, bio_rest_start.
  destruct (readline (tio_text t)) as [|c l] eqn:Er; [reflexivity|].
  rewrite (IH t' (ln + 1)%Z H2); cbn [load_docs]; do 3 f_equal.
  apply bio_iter_rest; rewrite bio_rest_start, bio_rest_readline, bio_rest_start, Er, H3.
  reflexivity.
Qed.

(** The loader's generator on a file just opened whose bytes are valid
    UTF-8: one document per line of the text-mode content. *)
Lemma lg_run_valid (c : bytes) (ln : Z) (p : string) :
  utf8_valid c = true ->
  lg_run (mkLoadGen (open_text c) ln p)
  = (load_docs ln p (bio_lines (mkBytesIO (translate_newlines c) 0)), None).
Proof.
  intros Hv; unfold lg_run; rewrite lg_drain_valid by exact Hv.
  do 2 f_equal; apply bio_iter_enough.
  unfold tio_size; cbn; pose proof (translate_newlines_length c); lia.
Qed.

(** Every document the loader's generator yields names its file. *)
Lemma lg_drain_source (n : nat) (g : LoadGen) :
  Forall (fun d => source_of d = Some (VStr (lg_file_path g))) (fst (lg_drain n g)).
Proof.
  revert g; induction n as [|m IH]; intros g; [constructor|].
  cbn [lg_drain]; unfold lg_next.
  destruct (tio_readline (lg_file g)) as [e|[[|c l] f']]; try constructor.
  specialize (IH (mkLoadGen f' (lg_line_number g + 1)%Z (lg_file_path g))).
  destruct (lg_drain m _) as [ds err]; constructor; [reflexivity | exact IH].
Qed.

Lemma In_firstn_inv {A} (n : nat) (l : list A) (x : A) : In x (firstn n l) -> In x l.
Proof. intros H; rewrite <- (firstn_skipn n l); apply in_or_app; left; exact H. Qed.

Lemma In_skipn_inv {A} (n : nat) (l : list A) (x : A) : In x (skipn n l) -> In x l.
Proof. intros H; rewrite <- (firstn_skipn n l); apply in_or_app; right; exact H. Qed.

Lemma read_chunk_no_CR (t t1 : TextIO) (more : bool) :
  read_chunk t = inr (more, t1) -> ~ In CR (tio_decoded t1).
Proof.
  unfold read_chunk.
  destruct (utf8_scan _ _) as [o p|]; [|discriminate].
  destruct (newline_decode _ _ _) as [dec pcr] eqn:En.
  intros H; injection H as _ <-; cbn [tio_decoded].
  unfold newline_decode in En.
  destruct (ends_with_CR _ && _); injection En as <- _;
    apply translate_newlines_no_CR_out.
Qed.

(** The text [readline()] returns comes from decoded chunks, which hold no
    carriage return. *)
Lemma readline_loop_no_CR (n : nat) (line : bytes) (t t' : TextIO) (l : bytes) :
  ~ In CR line -> ~ In CR (tio_decoded t) ->
  readline_loop n line t = inr (l, t') -> ~ In CR l /\ ~ In CR (tio_decoded t').
Proof.
  revert line t; induction n as [|m IH]; intros line t Hl Hd H; cbn [readline_loop] in H.
  - injection H as <- <-; auto.
  - destruct (find_NL line) as [pos|].
    + injection H as <- <-; cbn [set_decoded tio_decoded].
      split; intros Hin; [apply Hl, (In_firstn_inv (S pos) line CR), Hin
                         | apply Hl, (In_skipn_inv (S pos) line CR), Hin].
    + destruct (read_chunk t) as [e|[more t1]] eqn:Er; [discriminate|].
      pose proof (read_chunk_no_CR _ _ _ Er) as Hd1.
      destruct (tio_decoded t1) as [|d ds] eqn:Ed.
      * destruct more; [apply (IH line t1); auto; rewrite Ed; auto|].
        injection H as <- <-; rewrite Ed; auto.
      * apply (IH (line ++ d :: ds) (set_decoded t1 [])); auto.
        intros Hin; apply in_app_or in Hin as [Hin|Hin]; auto.
Qed.

Lemma tio_readline_no_CR (t t' : TextIO) (l : bytes) :
  ~ In CR (tio_decoded t) -> tio_readline t = inr (l, t') ->
  ~ In CR l /\ ~ In CR (tio_decoded t').
Proof.
  intros Hd; apply readline_loop_no_CR; [exact Hd | simpl; auto].
Qed.

Lemma lg_drain_no_CR (n : nat) (g : LoadGen) :
  ~ In CR (tio_decoded (lg_file g)) ->
  Forall (fun d => ~ In CR (page_content d)) (fst (lg_drain n g)).
Proof.
  revert g; induction n as [|m IH]; intros g Hd; [constructor|].
  cbn [lg_drain]; unfold lg_next.
  destruct (tio_readline (lg_file g)) as [e|[l f']] eqn:Er; [constructor|].
  destruct (tio_readline_no_CR _ _ _ Hd Er) as [Hl Hf'].
  destruct l as [|c l]; [constructor|].
  specialize (IH (mkLoadGen f' (lg_line_number g + 1)%Z (lg_file_path g)) Hf').
  destruct (lg_drain m _) as [ds err]; constructor; [exact Hl | exact IH].
Qed.
(** ** Documents of the two line readers *)

Lemma parse_docs_content (ln : Z) (b : Blob) (ls : list bytes) :
  map page_content (parse_docs ln b ls) = ls.
Proof. revert ln; induction ls; intros; simpl; f_equal; auto. Qed.

Lemma load_docs_content (ln : Z) (p : string) (ls : list bytes) :
  map page_content (load_docs ln p ls) = ls.
Proof. revert ln; induction ls; intros; simpl; f_equal; auto. Qed.

Lemma parse_docs_length (ln : Z) (b : Blob) (ls : list bytes) :
  List.length (parse_docs ln b ls) = List.length ls.
Proof. revert ln; induction ls; intros; simpl; f_equal; auto. Qed.

Lemma load_docs_length (ln : Z) (p : string) (ls : list bytes) :
  List.length (load_docs ln p ls) = List.length ls.
Proof. revert ln; induction ls; intros; simpl; f_equal; auto. Qed.

Lemma map_seq_shift (h : nat -> option value) (start n : nat) :
  map h (seq (S start) n) = map (fun k => h (S k)) (seq start n).
Proof. rewrite <- seq_shift, map_map; reflexivity. Qed.

Lemma parse_docs_numbers (ln : Z) (b : Blob) (ls : list bytes) :
  map line_number_of (parse_docs ln b ls)
  = map (fun k => Some (VInt (ln + Z.of_nat k))) (seq 1 (List.length ls)).
Proof.
  revert ln; induction ls as [|l t IH]; intros ln; [reflexivity|].
  simpl; rewrite IH, (map_seq_shift _ 1); f_equal.
  apply map_ext; intros k; do 2 f_equal; lia.
Qed.

Lemma load_docs_numbers (ln : Z) (p : string) (ls : list bytes) :
  map line_number_of (load_docs ln p ls)
  = map (fun k => Some (VInt (ln + Z.of_nat k))) (seq 0 (List.length ls)).
Proof.
  revert ln; induction ls as [|l t IH]; intros ln; [reflexivity|].
  simpl; rewrite IH, map_seq_shift; f_equal; [cbn; rewrite Z.add_0_r; reflexivity|].
  apply map_ext; intros k; do 2 f_equal; lia.
Qed.

Lemma parse_docs_source (ln : Z) (b : Blob) (ls : list bytes) :
  Forall (fun d => source_of d = Some (py_optstr (blob_source b))) (parse_docs ln b ls).
Proof. revert ln; induction ls; intros; simpl; constructor; auto. Qed.

Lemma load_docs_source (ln : Z) (p : string) (ls : list bytes) :
  Forall (fun d => source_of d = Some (VStr p)) (load_docs ln p ls).
Proof. revert ln; induction ls; intros; simpl; constructor; auto. Qed.

(** Both readers number the same lines, the parser one higher. *)
Lemma load_parse_numbers (ln : Z) (p : string) (b : Blob) (ls : list bytes) :
  Forall2 (fun dl dp => exists z, line_number_of dl = Some (VInt z)
                                  /\ line_number_of dp = Some (VInt (z + 1)))
          (load_docs ln p ls) (parse_docs ln b ls).
Proof.
  revert ln; induction ls; intros; simpl; constructor; auto.
  exists ln; split; reflexivity.
Qed.

(** ** The parser's generator *)

Lemma pg_drain_run (n : nat) (f : BytesIO) (ln : Z) (b : Blob) :
  pg_drain n (mkParseGen f ln b) = parse_run ln b (bio_iter n f).
Proof.
  revert f ln; induction n as [|m IH]; intros f ln; [reflexivity|].
  rewrite bio_iter_S; cbn [pg_drain]; unfold pg_next, bio_readline; cbn [pg_file].
  destruct (readline (bio_rest f)) as [|c t]; [reflexivity|].
  cbn [parse_run pg_line_number pg_blob]; destruct (utf8_valid (c :: t)); [|reflexivity].
  rewrite IH; reflexivity.
Qed.

Lemma pg_run_lines (g : ParseGen) :
  pg_run g = parse_run (pg_line_number g) (pg_blob g) (bio_lines (pg_file g)).
Proof. destruct g; apply pg_drain_run. Qed.

(** Valid UTF-8 lines give one document each, and no exception. *)
Lemma parse_run_valid (ln : Z) (b : Blob) (ls : list bytes) :
  Forall (fun l => utf8_valid l = true) ls -> parse_run ln b ls = (parse_docs ln b ls, None).
Proof.
  intros H; revert ln; induction H as [|l ls Hl Hls IH]; intros ln; [reflexivity|].
  cbn [parse_run parse_docs]; rewrite Hl, IH; reflexivity.
Qed.

(** The first malformed line raises, after the documents of the lines before. *)
Lemma parse_run_invalid (ln : Z) (b : Blob) (pre : list bytes) (l : bytes)
    (post : list bytes) :
  Forall (fun l => utf8_valid l = true) pre -> utf8_valid l = false ->
  parse_run ln b (pre ++ l :: post)
  = (parse_docs ln b pre, Some (ValidationError "page_content")).
Proof.
  intros Hpre Hl; revert ln; induction Hpre as [|l' ls Hl' Hls IH]; intros ln.
  - cbn; rewrite Hl; reflexivity.
  - cbn [app parse_run parse_docs]; rewrite Hl', IH; reflexivity.
Qed.

Lemma parse_run_docs (ln : Z) (b : Blob) (ls : list bytes) :
  exists pre, fst (parse_run ln b ls) = parse_docs ln b pre.
Proof.
  revert ln; induction ls as [|l t IH]; intros ln; [exists []; reflexivity|].
  cbn [parse_run]; destruct (utf8_valid l); [|exists []; reflexivity].
  destruct (IH (ln + 1)%Z) as [pre Hpre].
  destruct (parse_run (ln + 1) b t) as [ds err]; exists (l :: pre).
  cbn in Hpre |- *; rewrite Hpre; reflexivity.
Qed.

Lemma parse_run_source (ln : Z) (b : Blob) (ls : list bytes) :
  Forall (fun d => source_of d = Some (py_optstr (blob_source b))) (fst (parse_run ln b ls)).
Proof.
  destruct (parse_run_docs ln b ls) as [pre ->]; apply parse_docs_source.
Qed.

(** The lines of valid UTF-8 are valid UTF-8. *)
Lemma lines_of_valid (s : bytes) (L : list bytes) :
  lines_of s L -> utf8_valid s = true -> Forall (fun l => utf8_valid l = true) L.
Proof.
  induction 1 as [|l Hne Hn|l s L Hn H IH]; intros Hv.
  - constructor.
  - constructor; [exact Hv | constructor].
  - destruct (utf8_valid_split NL ltac:(cbn; lia) l s Hv) as [H1 H2].
    constructor; [exact H1 | apply IH, H2].
Qed.

(** [MyParser] on bytes that are valid UTF-8 yields a document for each of
    their lines. *)
Lemma MyParser_valid (env : Env) (b : Blob) (f : BytesIO) :
  as_bytes_io env b = inr f -> utf8_valid (bio_rest f) = true ->
  MyParser env b = (parse_docs 0 b (bio_lines f), None).
Proof.
  intros Hf Hv; unfold MyParser, MyParser_lazy_parse; rewrite Hf, pg_run_lines.
  apply parse_run_valid, (lines_of_valid (bio_rest f)); [apply bio_lines_of | exact Hv].
Qed.

(** One [next()] of the parser's generator, on its whole outcome. *)
Lemma pg_run_next (g : ParseGen) :
  pg_run g = match pg_next g with
             | Stop => ([], None)
             | Raise e => ([], Some e)
             | Yield d g' => (d :: fst (pg_run g'), snd (pg_run g'))
             end.
Proof.
  rewrite pg_run_lines, bio_lines_step.
  destruct g as [f ln b]; unfold pg_next, bio_readline; cbn [pg_file pg_line_number pg_blob].
  destruct (readline (bio_rest f)) as [|c t]; [reflexivity|].
  cbn [parse_run]; destruct (utf8_valid (c :: t)); [|reflexivity].
  rewrite pg_run_lines; cbn [pg_file pg_line_number pg_blob].
  destruct (parse_run _ _ _); reflexivity.
Qed.

Lemma pg_all_next (g : ParseGen) :
  pg_all g = match pg_next g with
             | Yield d g' => d :: pg_all g'
             | _ => []
             end.
Proof. unfold pg_all; rewrite pg_run_next; destruct (pg_next g); reflexivity. Qed.

Lemma outcome_trace_next (g : ParseGen) :
  outcome_trace (pg_run g) = match pg_next g with
                             | Stop => []
                             | Raise e => [EvRaise e]
                             | Yield d g' => EvYield d :: outcome_trace (pg_run g')
                             end.
Proof. rewrite pg_run_next; destruct (pg_next g); reflexivity. Qed.

Lemma pg_next_yield (g g1 : ParseGen) (d : Document) :
  pg_next g = Yield d g1 ->
  page_content d = readline (bio_rest (pg_file g))
  /\ bio_buf (pg_file g1) = bio_buf (pg_file g)
  /\ bio_pos (pg_file g1) = (bio_pos (pg_file g) + List.length (page_content d))%nat
  /\ pg_line_number g1 = (pg_line_number g + 1)%Z
  /\ pg_blob g1 = pg_blob g
  /\ line_number_of d = Some (VInt (pg_line_number g + 1)).
Proof.
  destruct g as [f ln b]; unfold pg_next, bio_readline; cbn [pg_file].
  destruct (readline (bio_rest f)) as [|c t]; [discriminate|].
  destruct (utf8_valid (c :: t)); [|discriminate].
  intros H; inversion H; subst; simpl; repeat split.
Qed.

(** Generators are independent: whatever the interleaving, each consumer
    receives a prefix of what its own generator gives when drained alone,
    the rest being what the generator still holds. *)
Lemma run_two_prefix (sched : list bool) (h1 h2 : option ParseGen) :
  let '(o1, o2, h1', h2') := run_two sched h1 h2 in
  o1 ++ rest_trace h1' = rest_trace h1 /\ o2 ++ rest_trace h2' = rest_trace h2.
Proof.
  revert h1 h2; induction sched as [|[|] s IH]; intros h1 h2; cbn [run_two].
  - auto.
  - destruct h1 as [g|]; [|apply IH].
    cbn [rest_trace]; rewrite outcome_trace_next.
    destruct (pg_next g) as [|d g1'|e].
    + apply (IH None h2).
    + specialize (IH (Some g1') h2).
      destruct (run_two s (Some g1') h2) as [[[o1 o2] h1'] h2'].
      destruct IH as [IH1 IH2]; split; [cbn [app]; rewrite IH1; reflexivity | exact IH2].
    + specialize (IH None h2).
      destruct (run_two s None h2) as [[[o1 o2] h1'] h2'].
      destruct IH as [IH1 IH2]; split; [cbn [app]; rewrite IH1; reflexivity | exact IH2].
  - destruct h2 as [g|]; [|apply IH].
    cbn [rest_trace]; rewrite outcome_trace_next.
    destruct (pg_next g) as [|d g2'|e].
    + apply (IH h1 None).
    + specialize (IH h1 (Some g2')).
      destruct (run_two s h1 (Some g2')) as [[[o1 o2] h1'] h2'].
      destruct IH as [IH1 IH2]; split; [exact IH1 | cbn [app]; rewrite IH2; reflexivity].
    + specialize (IH h1 None).
      destruct (run_two s h1 None) as [[[o1 o2] h1'] h2'].
      destruct IH as [IH1 IH2]; split; [exact IH1 | cbn [app]; rewrite IH2; reflexivity].
Qed.

(** [CustomDocumentLoader.lazy_load] on a file of valid UTF-8. *)
Lemma lazy_load_valid (env : Env) (p : string) (c : bytes) :
  fs env p = Some c -> utf8_valid c = true ->
  lazy_load env (CustomDocumentLoader p)
  = map EvYield (load_docs 0 p (bio_lines (mkBytesIO (translate_newlines c) 0))).
Proof.
  intros Hfs Hv; unfold lazy_load, gen_trace, CustomDocumentLoader_lazy_load, open_utf8.
  rewrite Hfs, lg_run_valid by exact Hv; unfold outcome_trace; cbn [fst snd].
  apply app_nil_r.
Qed.

(** [_read_chunk()] at the start of a file whose first chunk is malformed. *)
Lemma read_chunk_first_error (t : TextIO) :
  tio_pending t = [] -> utf8_scan false (firstn CHUNK_SIZE (tio_raw t)) = ScanErr ->
  read_chunk t = inl (UnicodeDecodeError "utf-8").
Proof.
  intros Hp He; unfold read_chunk; rewrite Hp; cbn [app].
  destruct (firstn CHUNK_SIZE (tio_raw t)) as [|c l]; [discriminate|].
  rewrite He; reflexivity.
Qed.

Lemma tio_readline_first_error (t : TextIO) :
  tio_pending t = [] -> tio_decoded t = [] ->
  utf8_scan false (firstn CHUNK_SIZE (tio_raw t)) = ScanErr ->
  tio_readline t = inl (UnicodeDecodeError "utf-8").
Proof.
  intros Hp Hd He; unfold tio_readline; rewrite Hd; cbn [readline_loop find_NL].
  rewrite (read_chunk_first_error (set_decoded t [])) by assumption; reflexivity.
Qed.
(** ** Draining a lazy sequence *)

Lemma yields_map_app (ds : list Document) (t : list event) :
  yields (map EvYield ds ++ t) = ds ++ yields t.
Proof. induction ds; simpl; f_equal; auto. Qed.

Lemma raised_map_app (ds : list Document) (t : list event) :
  raised (map EvYield ds ++ t) = raised t.
Proof. induction ds; simpl; auto. Qed.

Lemma py_list_acc_spec (t : list event) (acc : list Document) :
  py_list_acc acc t = match raised t with
                      | Some e => inl e
                      | None => inr (rev acc ++ yields t)
                      end.
Proof.
  revert acc; induction t as [|[i|d|e] t IH]; intros acc; simpl.
  - rewrite app_nil_r; reflexivity.
  - apply IH.
  - rewrite IH; destruct (raised t); auto.
    simpl; rewrite <- app_assoc; reflexivity.
  - reflexivity.
Qed.

(** ** The generic loader's trace *)

Lemma generic_trace_ok (parse : Blob -> list Document * option py_error)
    (blobs : list Blob) (i : nat) :
  Forall (fun b => snd (parse b) = None) blobs ->
  yields (generic_trace parse i (map ItemBlob blobs))
    = List.concat (map (fun b => fst (parse b)) blobs)
  /\ raised (generic_trace parse i (map ItemBlob blobs)) = None.
Proof.
  revert i; induction blobs as [|b bs IH]; intros i Hok; [auto|].
  inversion Hok as [|b' bs' Hb Hbs]; subst.
  simpl; destruct (parse b) as [ds err]; simpl in Hb; subst err.
  cbn [yields raised fst]; rewrite yields_map_app, raised_map_app.
  destruct (IH (S i) Hbs) as [-> ->]; auto.
Qed.

Lemma generic_trace_error (parse : Blob -> list Document * option py_error)
    (good : list Blob) (bad : item) (rest : list item) (e : py_error)
    (partial : list Document) (i : nat) :
  Forall (fun b => snd (parse b) = None) good ->
  (bad = ItemError e /\ partial = []
   \/ exists b, bad = ItemBlob b /\ parse b = (partial, Some e)) ->
  exists pre,
    generic_trace parse i (map ItemBlob good ++ bad :: rest) = pre ++ [EvRaise e]
    /\ yields pre = List.concat (map (fun b => fst (parse b)) good) ++ partial
    /\ raised pre = None.
Proof.
  intros Hok Hbad; revert i; induction Hok as [|b bs Hb Hbs IH]; intros i; simpl.
  - destruct Hbad as [[-> ->] | (b & -> & Hp)].
    + exists []; auto.
    + rewrite Hp; exists (EvResolve i :: map EvYield partial); cbn [yields raised].
      split; [reflexivity|].
      rewrite <- (app_nil_r (map EvYield partial)), yields_map_app, raised_map_app.
      simpl; rewrite app_nil_r; auto.
  - destruct (parse b) as [ds err]; simpl in Hb; subst err.
    destruct (IH (S i)) as (pre & Hpre & Hy & Hr).
    exists (EvResolve i :: map EvYield ds ++ pre); cbn [yields raised fst].
    rewrite Hpre, <- app_assoc, yields_map_app, raised_map_app, Hy, app_assoc; auto.
Qed.

Lemma take_yields_0 (t : list event) : take_yields 0 t = [].
Proof. destruct t as [|[] t]; reflexivity. Qed.

Lemma take_yields_incl (n : nat) (t : list event) (ev : event) :
  In ev (take_yields n t) -> In ev t.
Proof.
  revert n; induction t as [|[i|d|e] t IH]; intros [|m] H; simpl in *; auto;
    destruct H; eauto.
Qed.

Lemma take_yields_map_app (n : nat) (ds : list Document) (t : list event) (i : nat) :
  In (EvResolve i) (take_yields n (map EvYield ds ++ t)) ->
  List.length ds < n /\ In (EvResolve i) (take_yields (n - List.length ds) t).
Proof.
  revert n; induction ds as [|d ds IH]; intros n H; simpl in *.
  - destruct n; [rewrite take_yields_0 in H; contradiction|].
    rewrite Nat.sub_0_r; split; [lia | exact H].
  - destruct n as [|m]; [contradiction|].
    destruct H as [H|H]; [discriminate|].
    destruct (IH m H); split; [lia | auto].
Qed.

(** While serving [n] requests, the generic loader resolves the payload of
    the item at position [i] only when every earlier item is a blob parsed
    without error and the earlier items gave fewer than [n] documents. *)
Lemma generic_trace_lazy (parse : Blob -> list Document * option py_error)
    (items : list item) (k n i : nat) :
  In (EvResolve i) (take_yields n (generic_trace parse k items)) ->
  k <= i
  /\ (forall j, j < i - k ->
        exists b, nth_error items j = Some (ItemBlob b) /\ snd (parse b) = None)
  /\ count_before parse items (i - k) < n.
Proof.
  revert k n; induction items as [|[b|e] rest IH]; intros k n H; simpl in H.
  - contradiction.
  - destruct (parse b) as [ds err] eqn:E.
    destruct n as [|m]; [contradiction|].
    destruct H as [H|H].
    + injection H as <-.
      rewrite Nat.sub_diag; split; [lia|split; [intros; lia|]].
      unfold count_before; simpl; lia.
    + apply take_yields_map_app in H as [Hlt H].
      destruct err as [e|].
      * apply take_yields_incl in H; destruct H as [H|[]]; discriminate.
      * destruct (IH (S k) _ H) as (Hki & Hbefore & Hcount).
        split; [lia|split].
        -- intros [|j] Hj.
           ++ exists b; rewrite E; auto.
           ++ apply (Hbefore j); lia.
        -- replace (i - k) with (S (i - S k)) by lia.
           unfold count_before in *; simpl; rewrite E; simpl; lia.
  - destruct n as [|m]; simpl in H; [contradiction|].
    destruct H as [H|[]]; discriminate.
Qed.

(** * Claims *)

(** C1 (counterexample). The bytes [b"\xff\n"] are one line, but not
    valid UTF-8: building [Document(page_content=line)] raises
    [ValidationError], so [MyParser] yields no document for that line. *)
Lemma MyParser_rejects_invalid_utf8 :
  lines_of [xff; x0a] [[xff; x0a]]
  /\ MyParser empty_env (Blob_of_data [xff; x0a])
     = ([], Some (ValidationError "page_content")).
Proof.
  split; [|vm_compute; reflexivity].
  exact (lines_cons [xff] [] [] ltac:(simpl; intros [H|[]]; discriminate) lines_nil).
Qed.

(** C1 (amended). On in-memory bytes that are valid UTF-8,
    [MyParser.lazy_parse] yields one document per line of the bytes (lines
    keep their [b"\n"] terminator, a final unterminated line is kept as
    is), raises nothing, and numbers the documents 1, 2, 3, ...; on
    [b"a\nb\nc"] it yields ["a\n"], ["b\n"], ["c"] numbered 1, 2, 3. *)
Theorem MyParser_in_memory_lines (env : Env) (data : bytes) :
  utf8_valid data = true ->
  snd (MyParser env (Blob_of_data data)) = None
  /\ lines_of data (map page_content (fst (MyParser env (Blob_of_data data))))
  /\ map line_number_of (fst (MyParser env (Blob_of_data data)))
     = map (fun k => Some (VInt (Z.of_nat k)))
           (seq 1 (List.length (fst (MyParser env (Blob_of_data data)))))
  /\ MyParser env (Blob_of_data [x61; x0a; x62; x0a; x63])
     = ([mkDocument [x61; x0a] [("line_number"%string, VInt 1); ("source"%string, VNone)];
         mkDocument [x62; x0a] [("line_number"%string, VInt 2); ("source"%string, VNone)];
         mkDocument [x63] [("line_number"%string, VInt 3); ("source"%string, VNone)]],
        None).
Proof.
  intros Hv.
  rewrite (MyParser_valid env (Blob_of_data data) (mkBytesIO data 0) eq_refl Hv).
  cbn [fst snd]; rewrite parse_docs_content, parse_docs_numbers, parse_docs_length.
  split; [reflexivity|]; split; [apply (bio_lines_of (mkBytesIO data 0))|].
  split; [apply map_ext; reflexivity | vm_compute; reflexivity].
Qed.

(** The bytes [b"a\n\xe2\x82\xac"] (["a\n€"]). *)
Lemma MyParser_in_memory_lines_witness :
  utf8_valid [x61; x0a; xe2; x82; xac] = true
  /\ snd (MyParser empty_env (Blob_of_data [x61; x0a; xe2; x82; xac])) = None
  /\ lines_of [x61; x0a; xe2; x82; xac]
       (map page_content (fst (MyParser empty_env (Blob_of_data [x61; x0a; xe2; x82; xac]))))
  /\ map line_number_of (fst (MyParser empty_env (Blob_of_data [x61; x0a; xe2; x82; xac])))
     = map (fun k => Some (VInt (Z.of_nat k)))
           (seq 1 (List.length (fst (MyParser empty_env
                                      (Blob_of_data [x61; x0a; xe2; x82; xac])))))
  /\ MyParser empty_env (Blob_of_data [x61; x0a; x62; x0a; x63])
     = ([mkDocument [x61; x0a] [("line_number"%string, VInt 1); ("source"%string, VNone)];
         mkDocument [x62; x0a] [("line_number"%string, VInt 2); ("source"%string, VNone)];
         mkDocument [x63] [("line_number"%string, VInt 3); ("source"%string, VNone)]],
        None).
Proof.
  assert (H : utf8_valid [x61; x0a; xe2; x82; xac] = true) by reflexivity.
  split; [exact H|]; exact (MyParser_in_memory_lines empty_env _ H).
Defined.

(** C2. Every document [MyParser] yields for a blob carries the blob's
    origin under ["source"], and every document [CustomDocumentLoader]
    yields carries its file path under ["source"]. *)
Theorem records_carry_source :
  (forall env b,
     Forall (fun d => source_of d = Some (py_optstr (blob_source b)))
            (fst (MyParser env b)))
  /\ (forall env p,
        Forall (fun ev => match ev with
                          | EvYield d => source_of d = Some (VStr p)
                          | _ => True
                          end)
               (lazy_load env (CustomDocumentLoader p))).
Proof.
  split.
  - intros env b; unfold MyParser, MyParser_lazy_parse.
    destruct (as_bytes_io env b) as [e|f]; [constructor|].
    rewrite pg_run_lines; apply parse_run_source.
  - intros env p; unfold lazy_load, gen_trace, CustomDocumentLoader_lazy_load.
    destruct (open_utf8 env p) as [e|f]; [repeat constructor|].
    unfold outcome_trace; apply Forall_app; split.
    + apply Forall_map; exact (lg_drain_source _ (mkLoadGen f 0 p)).
    + destruct (snd (lg_run _)); repeat constructor.
Qed.

(** C3. When no item of the blob loader fails to enumerate and the parser
    raises on no blob, the generic loader yields exactly the concatenation,
    in enumeration order, of the documents the parser yields for each
    blob, and raises nothing. *)
Theorem generic_loader_concat (env : Env) (parser : BlobParser) (blobs : list Blob) :
  Forall (fun b => snd (parser env b) = None) blobs ->
  yields (lazy_load env (GenericLoader (map ItemBlob blobs) parser))
    = List.concat (map (fun b => fst (parser env b)) blobs)
  /\ raised (lazy_load env (GenericLoader (map ItemBlob blobs) parser)) = None.
Proof. intros H; apply generic_trace_ok; exact H. Qed.

(** Blobs [b"a\nb"] and [b"c"]: [MyParser] gives [r1a], [r1b] and [r2a],
    and the generic loader yields [r1a; r1b; r2a]. *)
Lemma generic_loader_concat_witness :
  Forall (fun b => snd (MyParser empty_env b) = None)
         [Blob_of_data [x61; x0a; x62]; Blob_of_data [x63]]
  /\ (yields (lazy_load empty_env
                (GenericLoader (map ItemBlob [Blob_of_data [x61; x0a; x62];
                                              Blob_of_data [x63]]) MyParser))
      = List.concat (map (fun b => fst (MyParser empty_env b))
                         [Blob_of_data [x61; x0a; x62]; Blob_of_data [x63]])
      /\ raised (lazy_load empty_env
                   (GenericLoader (map ItemBlob [Blob_of_data [x61; x0a; x62];
                                                 Blob_of_data [x63]]) MyParser))
         = None)
  /\ List.concat (map (fun b => fst (MyParser empty_env b))
                      [Blob_of_data [x61; x0a; x62]; Blob_of_data [x63]])
     = [mkDocument [x61; x0a] [("line_number"%string, VInt 1); ("source"%string, VNone)];
        mkDocument [x62] [("line_number"%string, VInt 2); ("source"%string, VNone)];
        mkDocument [x63] [("line_number"%string, VInt 1); ("source"%string, VNone)]].
Proof.
  assert (H : Forall (fun b => snd (MyParser empty_env b) = None)
                     [Blob_of_data [x61; x0a; x62]; Blob_of_data [x63]])
    by (repeat constructor).
  split; [exact H|]; split; [apply (generic_loader_concat empty_env MyParser); exact H|].
  reflexivity.
Defined.

(** C4. [load()] is the full draining of [lazy_load()]: the list of every
    document it yields, in order, or the exception it raises. *)
Theorem load_drains_lazy_load (env : Env) (L : Loader) :
  load env L = match raised (lazy_load env L) with
               | Some e => inl e
               | None => inr (yields (lazy_load env L))
               end.
Proof. unfold load, py_list; rewrite py_list_acc_spec; reflexivity. Qed.

(** C5. Two calls [parser.lazy_parse(blob)] give two independent
    generators: however the consumers interleave their [next()] calls, each
    receives a prefix of the whole outcome of [MyParser] on the blob (its
    documents, then its exception if it raises), and its generator still
    holds exactly the rest; if the payload cannot be opened, both raise the
    same exception. *)
Theorem MyParser_parse_twice (env : Env) (b : Blob) (sched : list bool) :
  match MyParser_lazy_parse env b, MyParser_lazy_parse env b with
  | inr g1, inr g2 =>
      let '(o1, o2, h1, h2) := run_two sched (Some g1) (Some g2) in
      o1 ++ rest_trace h1 = outcome_trace (MyParser env b)
      /\ o2 ++ rest_trace h2 = outcome_trace (MyParser env b)
  | inl e1, inl e2 => e1 = e2 /\ MyParser env b = ([], Some e1)
  | _, _ => False
  end.
Proof.
  unfold MyParser.
  destruct (MyParser_lazy_parse env b) as [e|g]; [auto|].
  pose proof (run_two_prefix sched (Some g) (Some g)) as H.
  destruct (run_two sched (Some g) (Some g)) as [[[o1 o2] h1] h2]; exact H.
Qed.

(** C6 (counterexample). Without the [aiofiles] package,
    [CustomDocumentLoader("meow.txt").alazy_load()] raises [ImportError]
    where [lazy_load()] yields the file's lines, so [aload()] and [load()]
    differ. *)
Lemma async_differs_without_aiofiles :
  raised (lazy_load (meow_env false) (CustomDocumentLoader "meow.txt")) = None
  /\ List.length (yields (lazy_load (meow_env false) (CustomDocumentLoader "meow.txt"))) = 2%nat
  /\ alazy_load (meow_env false) (CustomDocumentLoader "meow.txt")
     = [EvRaise (ImportError "aiofiles")]
  /\ aload (meow_env false) (CustomDocumentLoader "meow.txt")
     <> load (meow_env false) (CustomDocumentLoader "meow.txt").
Proof. vm_compute; repeat split; discriminate. Qed.

(** C6 (amended). When [aiofiles] can be imported, the asynchronous
    [alazy_load] and [aload] of every loader produce the same trace (same
    documents, same exceptions, same order) and the same result as
    [lazy_load] and [load]. *)
Theorem async_matches_sync (env : Env) (L : Loader) :
  aiofiles_installed env = true ->
  alazy_load env L = lazy_load env L /\ aload env L = load env L.
Proof.
  intros H.
  assert (E : alazy_load env L = lazy_load env L).
  { destruct L as [p|items parser]; [|reflexivity].
    unfold alazy_load, lazy_load, CustomDocumentLoader_alazy_load,
      CustomDocumentLoader_lazy_load.
    rewrite H; reflexivity. }
  split; [exact E|]; unfold aload, load; rewrite E; reflexivity.
Qed.

Lemma async_matches_sync_witness :
  aiofiles_installed (meow_env true) = true
  /\ alazy_load (meow_env true) (CustomDocumentLoader "meow.txt")
     = lazy_load (meow_env true) (CustomDocumentLoader "meow.txt")
  /\ aload (meow_env true) (CustomDocumentLoader "meow.txt")
     = load (meow_env true) (CustomDocumentLoader "meow.txt").
Proof.
  split; [reflexivity|].
  apply (async_matches_sync (meow_env true)); reflexivity.
Defined.

(** C7. If the blobs before position [k] enumerate and parse without error
    and the item at position [k] fails (its enumeration raises [e], or the
    parser yields [partial] and then raises [e] on it), the generic loader
    yields every document of the earlier blobs, in order, then the
    documents [partial], then raises [e], and nothing follows. *)
Theorem generic_loader_error_prefix (env : Env) (parser : BlobParser)
    (good : list Blob) (bad : item) (rest : list item) (e : py_error)
    (partial : list Document) :
  Forall (fun b => snd (parser env b) = None) good ->
  (bad = ItemError e /\ partial = []
   \/ exists b, bad = ItemBlob b /\ parser env b = (partial, Some e)) ->
  exists pre,
    lazy_load env (GenericLoader (map ItemBlob good ++ bad :: rest) parser)
      = pre ++ [EvRaise e]
    /\ yields pre = List.concat (map (fun b => fst (parser env b)) good) ++ partial
    /\ raised pre = None.
Proof. intros Hgood Hbad; apply generic_trace_error; assumption. Qed.

(** The second item's enumeration raises [SourceEnumerationError]: the
    documents of the first blob come out, then the exception. *)
Lemma generic_loader_error_prefix_witness :
  exists pre,
    lazy_load empty_env
      (GenericLoader (map ItemBlob [Blob_of_data [x61; x0a; x62]]
                      ++ [ItemError (SourceEnumerationError "second blob");
                          ItemBlob (Blob_of_data [x63])]) MyParser)
      = pre ++ [EvRaise (SourceEnumerationError "second blob")]
    /\ yields pre = List.concat (map (fun b => fst (MyParser empty_env b))
                                     [Blob_of_data [x61; x0a; x62]]) ++ []
    /\ raised pre = None.
Proof.
  apply (generic_loader_error_prefix empty_env MyParser
           [Blob_of_data [x61; x0a; x62]]
           (ItemError (SourceEnumerationError "second blob"))
           [ItemBlob (Blob_of_data [x63])]
           (SourceEnumerationError "second blob") []).
  - repeat constructor.
  - left; split; reflexivity.
Defined.

(** C8 (counterexample). Over the files ["empty.txt"] (empty) and ["x.txt"],
    consuming only the first document of the generic loader with [MyParser]
    already resolves the payload of the second item: the first blob yields
    nothing, so the loader moves on to the second one. *)
Lemma first_record_resolves_second_item :
  In (EvResolve 1)
     (take_yields 1 (lazy_load two_files_env
                       (GenericLoader [ItemBlob (Blob_from_path "empty.txt");
                                       ItemBlob (Blob_from_path "x.txt")] MyParser))).
Proof. vm_compute; right; left; reflexivity. Qed.

(** C8 (amended). Enumeration resolves no payload, and while the consumer
    has requested [n] documents the generic loader has resolved the payload
    of the item at position [i] (counting from 0) only if every earlier
    item is a blob parsed without error and the earlier items produced
    fewer than [n] documents in total. With [n = 1]: consuming the first
    document resolves no item after the first one that produces a
    document. *)
Theorem generic_loader_lazy (env : Env) (parser : BlobParser) (items : list item)
    (n i : nat) :
  In (EvResolve i) (take_yields n (lazy_load env (GenericLoader items parser))) ->
  (forall j, j < i ->
     exists b, nth_error items j = Some (ItemBlob b) /\ snd (parser env b) = None)
  /\ count_before (parser env) items i < n.
Proof.
  intros H; simpl in H.
  destruct (generic_trace_lazy (parser env) items 0 n i H) as (_ & Hb & Hc).
  rewrite Nat.sub_0_r in Hb, Hc; split; [intros j Hj; apply Hb; lia | exact Hc].
Qed.

Lemma generic_loader_lazy_witness :
  In (EvResolve 1)
     (take_yields 1 (lazy_load two_files_env
                       (GenericLoader [ItemBlob (Blob_from_path "empty.txt");
                                       ItemBlob (Blob_from_path "x.txt")] MyParser)))
  /\ (forall j, j < 1 ->
        exists b, nth_error [ItemBlob (Blob_from_path "empty.txt");
                             ItemBlob (Blob_from_path "x.txt")] j = Some (ItemBlob b)
                  /\ snd (MyParser two_files_env b) = None)
  /\ count_before (MyParser two_files_env)
       [ItemBlob (Blob_from_path "empty.txt"); ItemBlob (Blob_from_path "x.txt")] 1 < 1.
Proof.
  assert (H : In (EvResolve 1)
                (take_yields 1 (lazy_load two_files_env
                   (GenericLoader [ItemBlob (Blob_from_path "empty.txt");
                                   ItemBlob (Blob_from_path "x.txt")] MyParser))))
    by (vm_compute; right; left; reflexivity).
  split; [exact H|].
  exact (generic_loader_lazy two_files_env MyParser _ 1 1 H).
Defined.

(** C9 (counterexample). On a file holding [b"a\r\nb"] the standalone
    loader (text mode, universal newlines) yields ["a\n"] where the parser
    (binary mode) yields ["a\r\n"]: the contents differ. *)
Lemma loaders_differ_on_crlf :
  map page_content (yields (lazy_load crlf_env (CustomDocumentLoader "crlf.txt")))
  <> map page_content (fst (MyParser crlf_env (Blob_from_path "crlf.txt"))).
Proof. vm_compute; discriminate. Qed.

(** C9 (amended). For a file whose bytes are valid UTF-8 and contain no
    carriage return, the standalone loader and [MyParser] on [Blob.from_path] of that file yield
    documents with the same contents in the same order; the loader numbers
    them 0, 1, 2, ... and the parser's number of each is one higher. *)
Theorem loader_parser_same_lines (env : Env) (p : string) (c : bytes) :
  fs env p = Some c -> ~ In CR c -> utf8_valid c = true ->
  exists lds pds,
    lazy_load env (CustomDocumentLoader p) = map EvYield lds
    /\ MyParser env (Blob_from_path p) = (pds, None)
    /\ map page_content lds = map page_content pds
    /\ map line_number_of lds
       = map (fun k => Some (VInt (Z.of_nat k))) (seq 0 (List.length lds))
    /\ Forall2 (fun dl dp => exists z, line_number_of dl = Some (VInt z)
                                       /\ line_number_of dp = Some (VInt (z + 1)))
               lds pds.
Proof.
  intros Hfs Hcr Hv.
  set (ls := bio_lines (mkBytesIO c 0)).
  exists (load_docs 0 p ls), (parse_docs 0 (Blob_from_path p) ls).
  assert (Hf : as_bytes_io env (Blob_from_path p) = inr (mkBytesIO c 0))
    by (unfold as_bytes_io; cbn [blob_data Blob_from_path]; rewrite Hfs; reflexivity).
  rewrite (lazy_load_valid env p c Hfs Hv), translate_newlines_no_CR by exact Hcr.
  rewrite (MyParser_valid env _ _ Hf Hv).
  split; [reflexivity|]; split; [reflexivity|].
  rewrite load_docs_content, parse_docs_content, load_docs_numbers, load_docs_length.
  split; [reflexivity|]; split; [apply map_ext; reflexivity|].
  apply load_parse_numbers.
Qed.

Lemma loader_parser_same_lines_witness :
  fs (meow_env true) "meow.txt" = Some [x61; x0a; x62]
  /\ ~ In CR [x61; x0a; x62]
  /\ utf8_valid [x61; x0a; x62] = true
  /\ exists lds pds,
       lazy_load (meow_env true) (CustomDocumentLoader "meow.txt") = map EvYield lds
       /\ MyParser (meow_env true) (Blob_from_path "meow.txt") = (pds, None)
       /\ map page_content lds = map page_content pds
       /\ map line_number_of lds
          = map (fun k => Some (VInt (Z.of_nat k))) (seq 0 (List.length lds))
       /\ Forall2 (fun dl dp => exists z, line_number_of dl = Some (VInt z)
                                          /\ line_number_of dp = Some (VInt (z + 1)))
                  lds pds.
Proof.
  assert (H1 : fs (meow_env true) "meow.txt" = Some [x61; x0a; x62]) by reflexivity.
  assert (H2 : ~ In CR [x61; x0a; x62])
    by (simpl; intros [H|[H|[H|[]]]]; discriminate).
  assert (H3 : utf8_valid [x61; x0a; x62] = true) by reflexivity.
  split; [exact H1|]; split; [exact H2|]; split; [exact H3|].
  exact (loader_parser_same_lines (meow_env true) "meow.txt" _ H1 H2 H3).
Defined.

(** C10. For a blob built from in-memory bytes (no origin), every document
    [MyParser] yields has the key ["source"] in its metadata, with value
    [None]. *)
Theorem MyParser_in_memory_source_None (env : Env) (data : bytes) :
  Forall (fun d => source_of d = Some VNone) (fst (MyParser env (Blob_of_data data))).
Proof.
  unfold MyParser, MyParser_lazy_parse, as_bytes_io; cbn [blob_data Blob_of_data].
  rewrite pg_run_lines; exact (parse_run_source 0 (Blob_of_data data) _).
Qed.

(** * Further properties of the guide's code *)

(** ** Lemmas *)

Lemma lines_of_concat (s : bytes) (L : list bytes) : lines_of s L -> List.concat L = s.
Proof.
  induction 1 as [|l Hne Hn|l s L Hn H IH]; simpl; auto.
  - apply app_nil_r.
  - rewrite IH, <- app_assoc; reflexivity.
Qed.

Lemma lines_of_nil_inv (L : list bytes) : lines_of [] L -> L = [].
Proof.
  inversion 1; subst; auto; [congruence | destruct l; discriminate].
Qed.

Lemma unterminated_tail_app_NL (l s : bytes) :
  unterminated_tail (l ++ NL :: s) = unterminated_tail s.
Proof.
  induction l as [|c l IH].
  - destruct s; reflexivity.
  - rewrite <- app_comm_cons, <- IH.
    destruct l; reflexivity.
Qed.

Lemma unterminated_tail_last (l : bytes) :
  l <> [] -> ~ In NL l -> unterminated_tail l = 1.
Proof.
  induction l as [|c l IH]; intros Hne Hn; [congruence|].
  destruct l as [|c' l'].
  - simpl; destruct (Byte.eqb c NL) eqn:E; [|reflexivity].
    exfalso; apply Hn; left; symmetry; apply Byte.byte_dec_bl; exact E.
  - change (unterminated_tail (c' :: l') = 1).
    apply IH; [discriminate|]; intros H; apply Hn; right; exact H.
Qed.

(** The number of lines: one per [b"\n"], plus an unterminated last line. *)
Lemma lines_of_length (s : bytes) (L : list bytes) :
  lines_of s L -> List.length L = (count_NL s + unterminated_tail s)%nat.
Proof.
  unfold count_NL.
  induction 1 as [|l Hne Hn|l s L Hn H IH].
  - reflexivity.
  - rewrite unterminated_tail_last by assumption.
    apply (count_occ_not_In Byte.byte_eq_dec) in Hn; rewrite Hn; reflexivity.
  - rewrite count_occ_app, unterminated_tail_app_NL.
    apply (count_occ_not_In Byte.byte_eq_dec) in Hn; rewrite Hn; simpl.
    destruct (Byte.byte_eq_dec NL NL) as [_|C]; [|congruence].
    rewrite IH; reflexivity.
Qed.

Lemma MyParser_lazy_parse_start (env : Env) (b : Blob) (g : ParseGen) :
  MyParser_lazy_parse env b = inr g -> pg_line_number g = 0%Z.
Proof.
  unfold MyParser_lazy_parse; destruct (as_bytes_io env b); intros H;
    inversion H; reflexivity.
Qed.

Lemma first_line_cell_ok (env : Env) (blobs : list Blob) (i : nat) :
  Forall (fun b => snd (MyParser env b) = None) blobs ->
  yields (first_line_cell env i (map ItemBlob blobs))
    = List.concat (map (fun b => firstn 1 (fst (MyParser env b))) blobs)
  /\ raised (first_line_cell env i (map ItemBlob blobs)) = None
  /\ Forall (fun d => line_number_of d = Some (VInt 1))
            (yields (first_line_cell env i (map ItemBlob blobs))).
Proof.
  revert i; induction blobs as [|b bs IH]; intros i Hok; [simpl; auto|].
  inversion Hok as [|b' bs' Hb Hbs]; subst.
  destruct (IH (S i) Hbs) as (Hy & Hr & Hl).
  unfold MyParser in Hb |- *; cbn [map first_line_cell].
  destruct (MyParser_lazy_parse env b) as [e|g] eqn:Eg; [discriminate|].
  rewrite (pg_run_next g) in Hb |- *.
  destruct (pg_next g) as [|d g1|e] eqn:En; cbn in Hb |- *; [auto | | discriminate].
  rewrite Hy, Hr; split; [reflexivity|]; split; [reflexivity|].
  constructor; [|rewrite <- Hy; exact Hl].
  destruct (pg_next_yield _ _ _ En) as (_ & _ & _ & _ & _ & ->).
  rewrite (MyParser_lazy_parse_start env b g Eg); reflexivity.
Qed.

(** ** Properties *)

(** [CustomDocumentLoader.lazy_load] on an existing file of valid UTF-8
    yields, without raising, one document per line of the file as read in
    text mode (universal newlines), numbered 0, 1, 2, ..., each with the
    file path as source; the contents put together give back the text-mode
    content. *)
Theorem CustomDocumentLoader_lines (env : Env) (p : string) (c : bytes) :
  fs env p = Some c -> utf8_valid c = true ->
  exists ds,
    lazy_load env (CustomDocumentLoader p) = map EvYield ds
    /\ lines_of (translate_newlines c) (map page_content ds)
    /\ List.concat (map page_content ds) = translate_newlines c
    /\ map line_number_of ds
       = map (fun k => Some (VInt (Z.of_nat k))) (seq 0 (List.length ds))
    /\ Forall (fun d => source_of d = Some (VStr p)) ds.
Proof.
  intros Hfs Hv.
  exists (load_docs 0 p (bio_lines (mkBytesIO (translate_newlines c) 0))).
  rewrite (lazy_load_valid env p c Hfs Hv).
  rewrite load_docs_content, load_docs_numbers, load_docs_length.
  pose proof (bio_lines_of (mkBytesIO (translate_newlines c) 0)) as Hl.
  split; [reflexivity|]; split; [exact Hl|].
  split; [apply lines_of_concat; exact Hl|].
  split; [apply map_ext; reflexivity | apply load_docs_source].
Qed.

(** The file ["meow.txt"] holding [b"a\nb"]. *)
Lemma CustomDocumentLoader_lines_witness :
  fs (meow_env true) "meow.txt" = Some [x61; x0a; x62]
  /\ utf8_valid [x61; x0a; x62] = true
  /\ exists ds,
    lazy_load (meow_env true) (CustomDocumentLoader "meow.txt") = map EvYield ds
    /\ lines_of (translate_newlines [x61; x0a; x62]) (map page_content ds)
    /\ List.concat (map page_content ds) = translate_newlines [x61; x0a; x62]
    /\ map line_number_of ds
       = map (fun k => Some (VInt (Z.of_nat k))) (seq 0 (List.length ds))
    /\ Forall (fun d => source_of d = Some (VStr "meow.txt")) ds.
Proof.
  assert (H : fs (meow_env true) "meow.txt" = Some [x61; x0a; x62]) by reflexivity.
  assert (Hv : utf8_valid [x61; x0a; x62] = true) by reflexivity.
  split; [exact H|]; split; [exact Hv|].
  exact (CustomDocumentLoader_lines (meow_env true) _ _ H Hv).
Defined.

(** No document [CustomDocumentLoader] yields contains a carriage return:
    text mode turns ["\r\n"] and ["\r"] into ["\n"]. *)
Theorem CustomDocumentLoader_no_CR (env : Env) (p : string) :
  Forall (fun ev => match ev with
                    | EvYield d => ~ In CR (page_content d)
                    | _ => True
                    end)
         (lazy_load env (CustomDocumentLoader p)).
Proof.
  unfold lazy_load, gen_trace, CustomDocumentLoader_lazy_load, open_utf8.
  destruct (fs env p) as [c|]; [|repeat constructor].
  unfold outcome_trace; apply Forall_app; split.
  - apply Forall_map; unfold lg_run.
    apply lg_drain_no_CR; cbn; intros [].
  - destruct (snd (lg_run _)); repeat constructor.
Qed.

(** A missing file: [CustomDocumentLoader.lazy_load] raises
    [FileNotFoundError] before yielding anything (so [load] raises it), and
    [MyParser] on [Blob.from_path] of it yields nothing and raises it. *)
Theorem missing_file_raises (env : Env) (p : string) :
  fs env p = None ->
  lazy_load env (CustomDocumentLoader p) = [EvRaise (FileNotFoundError p)]
  /\ load env (CustomDocumentLoader p) = inl (FileNotFoundError p)
  /\ MyParser env (Blob_from_path p) = ([], Some (FileNotFoundError p)).
Proof.
  intros H.
  unfold load, lazy_load, gen_trace, CustomDocumentLoader_lazy_load, open_utf8,
    MyParser, MyParser_lazy_parse, as_bytes_io; cbn [blob_data Blob_from_path].
  rewrite H; auto.
Qed.

Lemma missing_file_raises_witness :
  fs empty_env "absent.txt" = None
  /\ lazy_load empty_env (CustomDocumentLoader "absent.txt")
     = [EvRaise (FileNotFoundError "absent.txt")]
  /\ load empty_env (CustomDocumentLoader "absent.txt")
     = inl (FileNotFoundError "absent.txt")
  /\ MyParser empty_env (Blob_from_path "absent.txt")
     = ([], Some (FileNotFoundError "absent.txt")).
Proof.
  split; [reflexivity|]; apply missing_file_raises; reflexivity.
Defined.

(** [MyParser] on [Blob.from_path] of an existing file of valid UTF-8
    yields, without raising, one document per line of the file's bytes (no
    newline translation), numbered 1, 2, 3, ..., each with the path as
    source. *)
Theorem MyParser_path_lines (env : Env) (p : string) (c : bytes) :
  fs env p = Some c -> utf8_valid c = true ->
  snd (MyParser env (Blob_from_path p)) = None
  /\ lines_of c (map page_content (fst (MyParser env (Blob_from_path p))))
  /\ map line_number_of (fst (MyParser env (Blob_from_path p)))
     = map (fun k => Some (VInt (Z.of_nat k)))
           (seq 1 (List.length (fst (MyParser env (Blob_from_path p)))))
  /\ Forall (fun d => source_of d = Some (VStr p)) (fst (MyParser env (Blob_from_path p))).
Proof.
  intros Hfs Hv.
  assert (Hf : as_bytes_io env (Blob_from_path p) = inr (mkBytesIO c 0))
    by (unfold as_bytes_io; cbn [blob_data Blob_from_path]; rewrite Hfs; reflexivity).
  rewrite (MyParser_valid env _ _ Hf Hv); cbn [fst snd].
  rewrite parse_docs_content, parse_docs_numbers, parse_docs_length.
  split; [reflexivity|]; split; [apply (bio_lines_of (mkBytesIO c 0))|].
  split; [apply map_ext; reflexivity|].
  apply (parse_docs_source 0 (Blob_from_path p)).
Qed.

(** The file ["crlf.txt"] holding [b"a\r\nb"]: the ["\r"] is kept. *)
Lemma MyParser_path_lines_witness :
  fs (crlf_env) "crlf.txt" = Some [x61; x0d; x0a; x62]
  /\ utf8_valid [x61; x0d; x0a; x62] = true
  /\ snd (MyParser crlf_env (Blob_from_path "crlf.txt")) = None
  /\ lines_of [x61; x0d; x0a; x62]
       (map page_content (fst (MyParser crlf_env (Blob_from_path "crlf.txt"))))
  /\ map line_number_of (fst (MyParser crlf_env (Blob_from_path "crlf.txt")))
     = map (fun k => Some (VInt (Z.of_nat k)))
           (seq 1 (List.length (fst (MyParser crlf_env (Blob_from_path "crlf.txt")))))
  /\ Forall (fun d => source_of d = Some (VStr "crlf.txt"))
            (fst (MyParser crlf_env (Blob_from_path "crlf.txt"))).
Proof.
  assert (H : fs crlf_env "crlf.txt" = Some [x61; x0d; x0a; x62]) by reflexivity.
  assert (Hv : utf8_valid [x61; x0d; x0a; x62] = true) by reflexivity.
  split; [exact H|]; split; [exact Hv|].
  exact (MyParser_path_lines crlf_env _ _ H Hv).
Defined.

(** Joining the contents of the documents [MyParser] yields for in-memory
    bytes of valid UTF-8 gives back exactly those bytes. *)
Theorem MyParser_roundtrip (env : Env) (data : bytes) :
  utf8_valid data = true ->
  List.concat (map page_content (fst (MyParser env (Blob_of_data data)))) = data.
Proof.
  intros Hv.
  rewrite (MyParser_valid env (Blob_of_data data) (mkBytesIO data 0) eq_refl Hv).
  cbn [fst]; rewrite parse_docs_content.
  apply (lines_of_concat _ _ (bio_lines_of (mkBytesIO data 0))).
Qed.

Lemma MyParser_roundtrip_witness :
  utf8_valid [x61; x0d; x0a; xe2; x82; xac] = true
  /\ List.concat (map page_content
       (fst (MyParser empty_env (Blob_of_data [x61; x0d; x0a; xe2; x82; xac]))))
     = [x61; x0d; x0a; xe2; x82; xac].
Proof.
  assert (Hv : utf8_valid [x61; x0d; x0a; xe2; x82; xac] = true) by reflexivity.
  split; [exact Hv | exact (MyParser_roundtrip empty_env _ Hv)].
Defined.

(** On in-memory bytes of valid UTF-8, [MyParser] yields one document per
    [b"\n"] in the bytes, plus one when the bytes end with an unterminated
    line; empty bytes give no document. *)
Theorem MyParser_count (env : Env) (data : bytes) :
  utf8_valid data = true ->
  List.length (fst (MyParser env (Blob_of_data data)))
  = (count_NL data + unterminated_tail data)%nat.
Proof.
  intros Hv.
  rewrite (MyParser_valid env (Blob_of_data data) (mkBytesIO data 0) eq_refl Hv).
  cbn [fst]; rewrite parse_docs_length.
  apply (lines_of_length _ _ (bio_lines_of (mkBytesIO data 0))).
Qed.

Lemma MyParser_count_witness :
  utf8_valid [x61; x0a; x0a; x62] = true
  /\ List.length (fst (MyParser empty_env (Blob_of_data [x61; x0a; x0a; x62])))
     = (count_NL [x61; x0a; x0a; x62] + unterminated_tail [x61; x0a; x0a; x62])%nat.
Proof.
  assert (Hv : utf8_valid [x61; x0a; x0a; x62] = true) by reflexivity.
  split; [exact Hv | exact (MyParser_count empty_env _ Hv)].
Defined.

(** The parser reads no further than it yields: after [k] calls of
    [next()] it has yielded the first [k] documents of its full output, its
    read position has advanced by exactly the bytes of those lines, and its
    counter by the number of documents. *)
Theorem MyParser_reads_on_demand (k : nat) (g : ParseGen) :
  let '(ds, g') := pg_steps k g in
  ds = firstn k (pg_all g)
  /\ bio_buf (pg_file g') = bio_buf (pg_file g)
  /\ bio_pos (pg_file g')
     = (bio_pos (pg_file g) + List.length (List.concat (map page_content ds)))%nat
  /\ pg_line_number g' = (pg_line_number g + Z.of_nat (List.length ds))%Z.
Proof.
  revert g; induction k as [|k IH]; intros g; simpl.
  - repeat split; lia.
  - rewrite (pg_all_next g).
    destruct (pg_next g) as [|d g1|e] eqn:En; simpl; [repeat split; lia | |repeat split; lia].
    destruct (pg_next_yield _ _ _ En) as (_ & Hbuf & Hpos & Hln & _ & _).
    specialize (IH g1); destruct (pg_steps k g1) as [ds g'].
    destruct IH as (-> & Hb' & Hp' & Hl').
    cbn [map List.concat List.length]; rewrite length_app, Nat2Z.inj_succ.
    repeat split; [congruence | lia | lia].
Qed.

(** The guide's cell that prints the first document of every blob and
    breaks: when [MyParser] parses every blob without raising (each blob
    can be opened and is valid UTF-8), it prints exactly the first line
    of each non-empty blob, in enumeration order, each numbered 1. *)
Theorem first_line_cell_prints_first_lines (env : Env) (blobs : list Blob) :
  Forall (fun b => snd (MyParser env b) = None) blobs ->
  yields (first_line_cell env 0 (map ItemBlob blobs))
    = List.concat (map (fun b => firstn 1 (fst (MyParser env b))) blobs)
  /\ raised (first_line_cell env 0 (map ItemBlob blobs)) = None
  /\ Forall (fun d => line_number_of d = Some (VInt 1))
            (yields (first_line_cell env 0 (map ItemBlob blobs))).
Proof. apply first_line_cell_ok. Qed.

Lemma first_line_cell_prints_first_lines_witness :
  Forall (fun b => snd (MyParser (meow_env true) b) = None)
         [Blob_from_path "meow.txt"; Blob_of_data []; Blob_of_data [x63; x0a; x61]]
  /\ yields (first_line_cell (meow_env true) 0
               (map ItemBlob [Blob_from_path "meow.txt"; Blob_of_data [];
                              Blob_of_data [x63; x0a; x61]]))
     = List.concat (map (fun b => firstn 1 (fst (MyParser (meow_env true) b)))
                        [Blob_from_path "meow.txt"; Blob_of_data [];
                         Blob_of_data [x63; x0a; x61]])
  /\ raised (first_line_cell (meow_env true) 0
               (map ItemBlob [Blob_from_path "meow.txt"; Blob_of_data [];
                              Blob_of_data [x63; x0a; x61]])) = None
  /\ Forall (fun d => line_number_of d = Some (VInt 1))
            (yields (first_line_cell (meow_env true) 0
               (map ItemBlob [Blob_from_path "meow.txt"; Blob_of_data [];
                              Blob_of_data [x63; x0a; x61]]))).
Proof.
  assert (H : Forall (fun b => snd (MyParser (meow_env true) b) = None)
                [Blob_from_path "meow.txt"; Blob_of_data []; Blob_of_data [x63; x0a; x61]])
    by (repeat constructor).
  split; [exact H|]; exact (first_line_cell_prints_first_lines _ _ H).
Defined.

(** A file whose first chunk is not valid UTF-8: the first [next()] of
    [CustomDocumentLoader.lazy_load] raises [UnicodeDecodeError] before any
    document is yielded, so [load] raises it. *)
Theorem CustomDocumentLoader_decode_error (env : Env) (p : string) (c : bytes) :
  fs env p = Some c -> utf8_scan false (firstn CHUNK_SIZE c) = ScanErr ->
  lazy_load env (CustomDocumentLoader p) = [EvRaise (UnicodeDecodeError "utf-8")]
  /\ load env (CustomDocumentLoader p) = inl (UnicodeDecodeError "utf-8").
Proof.
  intros Hfs He.
  assert (H : lazy_load env (CustomDocumentLoader p) = [EvRaise (UnicodeDecodeError "utf-8")]).
  { unfold lazy_load, gen_trace, CustomDocumentLoader_lazy_load, open_utf8.
    rewrite Hfs; unfold lg_run; cbn [lg_drain]; unfold lg_next; cbn [lg_file].
    rewrite tio_readline_first_error by (first [reflexivity | exact He]).
    reflexivity. }
  split; [exact H|]; unfold load; rewrite H; reflexivity.
Qed.

(** The file ["bad.txt"] holding [b"a\n\xff\nb"]: the loader yields
    nothing, not even the valid first line. *)
Lemma CustomDocumentLoader_decode_error_witness :
  fs bad_env "bad.txt" = Some [x61; x0a; xff; x0a; x62]
  /\ utf8_scan false (firstn CHUNK_SIZE [x61; x0a; xff; x0a; x62]) = ScanErr
  /\ lazy_load bad_env (CustomDocumentLoader "bad.txt")
     = [EvRaise (UnicodeDecodeError "utf-8")]
  /\ load bad_env (CustomDocumentLoader "bad.txt") = inl (UnicodeDecodeError "utf-8").
Proof.
  assert (H1 : fs bad_env "bad.txt" = Some [x61; x0a; xff; x0a; x62]) by reflexivity.
  assert (H2 : utf8_scan false (firstn CHUNK_SIZE [x61; x0a; xff; x0a; x62]) = ScanErr)
    by (vm_compute; reflexivity).
  split; [exact H1|]; split; [exact H2|].
  exact (CustomDocumentLoader_decode_error bad_env _ _ H1 H2).
Defined.

(** When the line [l] of in-memory bytes is the first one that is not valid
    UTF-8, [MyParser] yields the documents of the lines before it, numbered
    1, 2, ..., and then raises [ValidationError]. *)
Theorem MyParser_stops_at_invalid_line (env : Env) (data : bytes) (pre : list bytes)
    (l : bytes) (post : list bytes) :
  lines_of data (pre ++ l :: post) ->
  Forall (fun x => utf8_valid x = true) pre -> utf8_valid l = false ->
  MyParser env (Blob_of_data data)
  = (parse_docs 0 (Blob_of_data data) pre, Some (ValidationError "page_content")).
Proof.
  intros Hl Hpre Hbad.
  unfold MyParser, MyParser_lazy_parse, as_bytes_io; cbn [blob_data Blob_of_data].
  rewrite pg_run_lines; cbn [pg_line_number pg_blob pg_file].
  rewrite (lines_of_unique _ _ _ (bio_lines_of (mkBytesIO data 0)) Hl).
  apply parse_run_invalid; assumption.
Qed.

Lemma MyParser_stops_at_invalid_line_witness :
  lines_of [x61; x0a; xff; x0a; x62] ([[x61; x0a]] ++ [xff; x0a] :: [[x62]])
  /\ Forall (fun x => utf8_valid x = true) [[x61; x0a]]
  /\ utf8_valid [xff; x0a] = false
  /\ MyParser empty_env (Blob_of_data [x61; x0a; xff; x0a; x62])
     = (parse_docs 0 (Blob_of_data [x61; x0a; xff; x0a; x62]) [[x61; x0a]],
        Some (ValidationError "page_content")).
Proof.
  assert (Hn : forall c, c <> NL -> ~ In NL [c])
    by (intros c Hc [H|[]]; apply Hc; exact H).
  assert (H1 : lines_of [x61; x0a; xff; x0a; x62] ([[x61; x0a]] ++ [xff; x0a] :: [[x62]]))
    by exact (lines_cons [x61] _ _ (Hn x61 ltac:(discriminate))
                (lines_cons [xff] _ _ (Hn xff ltac:(discriminate))
                   (lines_last [x62] ltac:(discriminate) (Hn x62 ltac:(discriminate))))).
  assert (H2 : Forall (fun x => utf8_valid x = true) [[x61; x0a]]) by (repeat constructor).
  assert (H3 : utf8_valid [xff; x0a] = false) by reflexivity.
  split; [exact H1|]; split; [exact H2|]; split; [exact H3|].
  exact (MyParser_stops_at_invalid_line empty_env _ _ _ _ H1 H2 H3).
Defined.
